(** * imagetoolbox-gpt: the proxy endpoint and the client controller

    A shallow embedding of the three source files of the repository:

    - the API route [handler] (the proxy in front of the completion service);
    - the page component [Home] of [src/pages/index.tsx], with its
      asynchronous [generateDescriptionAndKeywords] and its [parseResponse];
    - the two [Index] components with the placeholder generation: the one
      stored after [Home] in [src/pages/index.tsx] and the older
      [src/pages/Index.jsx], which appends to the image list.

    JavaScript strings are sequences of UTF-16 code units, exceptions are
    explicit completions, React state is an explicit record, and the event
    loop is a step function over events. *)

From Stdlib Require Import NArith ZArith String Ascii Bool Lia DecimalString.
From stdpp Require Import base option list.

Local Open Scope N_scope.

(** ** JavaScript values used by the sources *)

Module JS.

(** A string value is a finite sequence of 16-bit code units. *)
Definition code_unit := N.
Definition jsstring := list code_unit.

(** Source literals are all ASCII: [str] embeds them. *)
Definition str (s : string) : jsstring :=
  map N_of_ascii (list_ascii_of_string s).

Definition jsstring_eqb (a b : jsstring) : bool := bool_decide (a = b).

(** Thrown values.  [Rejected] stands for whatever a platform promise
    rejects with (a network failure, a file-reader error event, an HTTP
    client error of the completion service). *)
Inductive js_error :=
| Error (message : jsstring)
| TypeError (message : jsstring)
| SyntaxError (message : jsstring)
| Rejected (reason : jsstring).

(** The outcome of evaluating an expression or of awaiting a promise. *)
Inductive completion (A : Type) :=
| Normal (a : A)
| Throw (e : js_error).
Arguments Normal {A} a.
Arguments Throw {A} e.

Definition bind {A B} (m : completion A) (k : A -> completion B) : completion B :=
  match m with
  | Normal a => k a
  | Throw e => Throw e
  end.

Declare Scope js_scope.
Delimit Scope js_scope with js.
Notation "'let*' x := m 'in' k" := (bind m (fun x => k))
  (at level 10, x name, m at level 100, k at level 200) : js_scope.

(** A Number.  [Num z] is the Number value for the mathematical integer
    [z] (exact up to 2^53 in absolute value, the nearest double beyond). *)
Inductive number :=
| Num (z : Z)
| NaN.

(** *** Character sets *)

(** LineTerminator: LF, CR, LS, PS. *)
Definition is_line_terminator (c : code_unit) : bool :=
  (c =? 10) || (c =? 13) || (c =? 8232) || (c =? 8233).

(** WhiteSpace: TAB, VT, FF, ZWNBSP and the space separators. *)
Definition is_white_space (c : code_unit) : bool :=
  (c =? 9) || (c =? 11) || (c =? 12) || (c =? 32) || (c =? 160)
  || (c =? 5760) || ((8192 <=? c) && (c <=? 8202))
  || (c =? 8239) || (c =? 8287) || (c =? 12288) || (c =? 65279).

(** What [String.prototype.trim] and [parseInt] strip. *)
Definition is_trimmed (c : code_unit) : bool :=
  is_white_space c || is_line_terminator c.

Definition is_digit (c : code_unit) : bool := (48 <=? c) && (c <=? 57).

(** *** String methods *)

Fixpoint trimStart (s : jsstring) : jsstring :=
  match s with
  | c :: tl => if is_trimmed c then trimStart tl else s
  | [] => []
  end.

Definition trimEnd (s : jsstring) : jsstring := rev (trimStart (rev s)).

(** [s.trim()] *)
Definition trim (s : jsstring) : jsstring := trimEnd (trimStart s).

(** [s.split(sep)] for a separator of one code unit: never an empty array,
    the empty string splits into one empty string. *)
Fixpoint split (sep : code_unit) (s : jsstring) : list jsstring :=
  match s with
  | [] => [[]]
  | c :: tl =>
      if c =? sep then [] :: split sep tl
      else match split sep tl with
           | piece :: pieces => (c :: piece) :: pieces
           | [] => [[c]]
           end
  end.

(** [s.startsWith(p)] and, when it holds, the rest of [s]. *)
Fixpoint strip_prefix (p s : jsstring) : option jsstring :=
  match p, s with
  | [], _ => Some s
  | a :: p', b :: s' => if a =? b then strip_prefix p' s' else None
  | _ :: _, [] => None
  end.

(** [s.includes(p)] *)
Fixpoint includes (s p : jsstring) : bool :=
  match strip_prefix p s with
  | Some _ => true
  | None => match s with
            | [] => false
            | _ :: tl => includes tl p
            end
  end.

(** [parseInt(s, 10)]: leading white space, an optional sign, then the
    longest run of decimal digits; [NaN] when there is no digit. *)
Fixpoint leading_digits (s : jsstring) : list code_unit :=
  match s with
  | c :: tl => if is_digit c then c :: leading_digits tl else []
  | [] => []
  end.

Definition digits_value (ds : list code_unit) : N :=
  fold_left (fun acc c => 10 * acc + (c - 48)) ds 0.

Definition parseInt (s : jsstring) : number :=
  let s1 := trimStart s in
  let '(negative, s2) :=
    match s1 with
    | 45 :: tl => (true, tl)
    | 43 :: tl => (false, tl)
    | _ => (false, s1)
    end in
  match leading_digits s2 with
  | [] => NaN
  | ds => let v := Z.of_N (digits_value ds) in
          Num (if negative then (- v)%Z else v)
  end.

(** *** Regular expressions

    The fragment of the pattern language the sources use, with the
    backtracking semantics of the language definition: a matcher takes the
    current state and a continuation, and a repetition tries its
    alternatives in the order its greediness prescribes. *)

Inductive char_class :=
| Dot      (* [.] without the dotAll flag *)
| Digit.   (* [\d] *)

Definition class_matches (cls : char_class) (c : code_unit) : bool :=
  match cls with
  | Dot => negb (is_line_terminator c)
  | Digit => is_digit c
  end.

Inductive regex :=
| Lit (s : jsstring)                                  (* pattern characters *)
| Repeat (cls : char_class) (min : nat) (greedy : bool) (* cls{min,} / cls{min,}? *)
| Capture (n : nat) (r : regex)                       (* the n-th ( ... ) *)
| Seq (r1 r2 : regex)
| Alt (r1 r2 : regex)                                 (* r1|r2 *)
| EndOfInput.                                         (* [$] without the multiline flag *)

(** The input still to be read, and the captures so far: index 0 is the
    whole match, index n the n-th group, [None] is [undefined]. *)
Record match_state := MatchState {
  rest : jsstring;
  captures : list (option jsstring)
}.

Definition continuation := match_state -> option match_state.

(** What was read between the states [x] and [y]. *)
Definition consumed (from : jsstring) (y : match_state) : jsstring :=
  take (length from - length (rest y))%nat from.

Fixpoint repeat_matcher (cls : char_class) (greedy : bool) (min : nat)
    (input : jsstring) (caps : list (option jsstring)) (c : continuation)
    : option match_state :=
  match input with
  | [] =>
      match min with
      | O => c (MatchState [] caps)
      | S _ => None
      end
  | ch :: tl =>
      let again :=
        if class_matches cls ch
        then repeat_matcher cls greedy (pred min) tl caps c
        else None in
      match min with
      | S _ => again
      | O =>
          if greedy
          then match again with
               | Some z => Some z
               | None => c (MatchState input caps)
               end
          else match c (MatchState input caps) with
               | Some z => Some z
               | None => again
               end
      end
  end.

Fixpoint matcher (r : regex) (x : match_state) (c : continuation)
    : option match_state :=
  match r with
  | Lit s =>
      match strip_prefix s (rest x) with
      | Some tl => c (MatchState tl (captures x))
      | None => None
      end
  | Repeat cls min greedy => repeat_matcher cls greedy min (rest x) (captures x) c
  | Capture n r' =>
      matcher r' x (fun y =>
        c (MatchState (rest y) (<[n := Some (consumed (rest x) y)]> (captures y))))
  | Seq r1 r2 => matcher r1 x (fun y => matcher r2 y c)
  | Alt r1 r2 =>
      match matcher r1 x c with
      | Some z => Some z
      | None => matcher r2 x c
      end
  | EndOfInput =>
      match rest x with
      | [] => c x
      | _ :: _ => None
      end
  end.

(** The number of capturing groups of a pattern. *)
Fixpoint groups (r : regex) : nat :=
  match r with
  | Capture n r' => Nat.max n (groups r')
  | Seq r1 r2 | Alt r1 r2 => Nat.max (groups r1) (groups r2)
  | Lit _ | Repeat _ _ _ | EndOfInput => 0
  end.

(** [s.match(r)] for a pattern without the global flag: the match is tried
    at index 0, 1, ... up to the length of [s]; the result is the array of
    the whole match and the groups, or [None] for [null]. *)
Fixpoint string_match (r : regex) (s : jsstring) : option (list (option jsstring)) :=
  match matcher r (MatchState s (replicate (S (groups r)) None)) Some with
  | Some y => Some (<[0%nat := Some (consumed s y)]> (captures y))
  | None =>
      match s with
      | [] => None
      | _ :: tl => string_match r tl
      end
  end.

(** [m[n]]: [undefined] for a group that did not take part, or out of range. *)
Definition group (m : list (option jsstring)) (n : nat) : option jsstring :=
  mjoin (m !! n).

Definition undefined_receiver : js_error :=
  TypeError (str "Cannot read properties of undefined").

(** Calling a string method on [m[n]] throws when it is [undefined]. *)
Definition receiver (v : option jsstring) : completion jsstring :=
  match v with
  | Some s => Normal s
  | None => Throw undefined_receiver
  end.

(** [String(n)] for a natural number. *)
Definition decimal (n : nat) : jsstring :=
  str (NilZero.string_of_uint (Nat.to_uint n)).

(** *** JSON values *)

Unset Elimination Schemes.
Inductive json :=
| JNull
| JBool (b : bool)
| JNumber (n : number)
| JString (s : jsstring)
| JArray (items : list json)
| JObject (fields : list (jsstring * json)).
Set Elimination Schemes.

(** The own property [key] of an object literal or of a parsed object: the
    last binding of a repeated key wins. *)
Fixpoint field (key : jsstring) (fields : list (jsstring * json)) : option json :=
  match fields with
  | [] => None
  | (k, v) :: tl =>
      match field key tl with
      | Some v' => Some v'
      | None => if jsstring_eqb k key then Some v else None
      end
  end.

(** [v.key], for the property names the sources read ([choices],
    [message], [content]: no array, string, number or boolean has a
    property of these names).  [None] is [undefined]. *)
Definition get (v : option json) (key : jsstring) : completion (option json) :=
  match v with
  | None => Throw undefined_receiver
  | Some JNull => Throw (TypeError (str "Cannot read properties of null"))
  | Some (JObject fields) => Normal (field key fields)
  | Some _ => Normal None
  end.

(** [v[i]] for an index [i]. *)
Definition get_index (v : option json) (i : nat) : completion (option json) :=
  match v with
  | None => Throw undefined_receiver
  | Some JNull => Throw (TypeError (str "Cannot read properties of null"))
  | Some (JArray items) => Normal (items !! i)
  | Some (JString s) => Normal ((fun c => JString [c]) <$> s !! i)
  | Some (JObject fields) => Normal (field (decimal i) fields)
  | Some _ => Normal None
  end.

(** [l.join(sep)] *)
Fixpoint join (sep : jsstring) (l : list jsstring) : jsstring :=
  match l with
  | [] => []
  | [x] => x
  | x :: tl => x ++ sep ++ join sep tl
  end.

End JS.

Import JS.
Local Open Scope js_scope.

(** ** The proxy endpoint: [handler] of the API route *)

Module Proxy.

Record NextApiRequest := {
  method : option jsstring;
  body : option json
}.

(** What one run of the handler does, in order. *)
Inductive effect :=
| ServiceCall (payload : option json)       (* openai.chat.completions.create *)
| ConsoleError (label : jsstring) (error : js_error)
| Respond (status : N) (body : json).       (* res.status(..).json(..) *)

Section Handler.

(** The completion service as seen by this request: what awaiting
    [openai.chat.completions.create(payload)] gives. *)
Variable create : option json -> completion json.

Definition handler (req : NextApiRequest) : list effect :=
  if negb (bool_decide (method req = Some (str "POST"))) then
    [Respond 405 (JObject [(str "error", JString (str "Method not allowed"))])]
  else
    match create (body req) with
    | Normal response =>
        [ServiceCall (body req); Respond 200 response]
    | Throw error =>
        [ServiceCall (body req);
         ConsoleError (str "OpenAI API error:") error;
         Respond 500 (JObject [(str "error", JString (str "Error processing your request"))])]
    end.

End Handler.

(** The response the client receives. *)
Definition response_of (trace : list effect) : option (N * json) :=
  last (omap (fun e => match e with Respond st b => Some (st, b) | _ => None end) trace).

Definition service_calls (trace : list effect) : list (option json) :=
  omap (fun e => match e with ServiceCall p => Some p | _ => None end) trace.

Definition logged (trace : list effect) : list js_error :=
  omap (fun e => match e with ConsoleError _ err => Some err | _ => None end) trace.

End Proxy.

(** ** The client controller: what the three page components share *)

Module Client.

Definition MAX_IMAGES : nat := 5.
Definition MIN_KEYWORDS : nat := 40.
Definition MAX_KEYWORDS : nat := 50.
Definition MAX_DESCRIPTION_CHARS : nat := 200.

(** A [File] picked by the user. *)
Record File := {
  name : jsstring;
  bytes : jsstring
}.

(** [interface ImageData] *)
Record ImageData := {
  file : File;
  preview : jsstring
}.

(** [interface Result] *)
Record Result := {
  description : jsstring;
  keywords : list jsstring;
  tokensUsed : number
}.

(** The argument of [toast(..)]. *)
Record Toast := {
  title : jsstring;
  message : jsstring;            (* the [description] property *)
  variant : option jsstring
}.

(** The [<input type="file">] element the component renders. *)
Record HTMLInputElement := {
  files : list File
}.

(** The [value] of a file input: empty when no file is selected, the fake
    path of the first selected file otherwise. *)
Definition value (el : HTMLInputElement) : jsstring :=
  match files el with
  | [] => []
  | f :: _ => str "C:\fakepath\" ++ name f
  end.

(** Assigning [''] to [value] empties the selection. *)
Definition set_value_empty (el : HTMLInputElement) : HTMLInputElement :=
  {| files := [] |}.

(** The state of a mounted component; [R] is the type of a result entry.
    [fileInput] is the file input of the page ([None] as long as it is not
    mounted); in the components that keep [fileInputRef], it is what
    [fileInputRef.current] holds. *)
Record state (R : Type) := State {
  images : list ImageData;
  results : list R;
  isLoading : bool;
  toasts : list Toast;                       (* the calls of toast(..), oldest first *)
  console : list (jsstring * js_error);      (* console.error lines *)
  fileInput : option HTMLInputElement;
  objectURLs : nat                           (* URL.createObjectURL calls so far *)
}.
Arguments State {R}.
Arguments images {R}.
Arguments results {R}.
Arguments isLoading {R}.
Arguments toasts {R}.
Arguments console {R}.
Arguments fileInput {R}.
Arguments objectURLs {R}.

Section Setters.
Context {R : Type}.
Implicit Type s : state R.

Definition setImages (f : list ImageData -> list ImageData) s : state R :=
  State (f (images s)) (results s) (isLoading s) (toasts s) (console s)
        (fileInput s) (objectURLs s).

Definition setResults (f : list R -> list R) s : state R :=
  State (images s) (f (results s)) (isLoading s) (toasts s) (console s)
        (fileInput s) (objectURLs s).

Definition setIsLoading (b : bool) s : state R :=
  State (images s) (results s) b (toasts s) (console s)
        (fileInput s) (objectURLs s).

Definition toast (t : Toast) s : state R :=
  State (images s) (results s) (isLoading s) (toasts s ++ [t]) (console s)
        (fileInput s) (objectURLs s).

Definition console_error (label : jsstring) (e : js_error) s : state R :=
  State (images s) (results s) (isLoading s) (toasts s) (console s ++ [(label, e)])
        (fileInput s) (objectURLs s).

Definition setFileInput (el : option HTMLInputElement) s : state R :=
  State (images s) (results s) (isLoading s) (toasts s) (console s)
        el (objectURLs s).

(** A component as first mounted. *)
Definition mounted : state R :=
  State [] [] false [] [] (Some {| files := [] |}) 0.

(** [URL.createObjectURL(file)]: a fresh handle on every call. *)
Definition createObjectURL (n : nat) : jsstring := str "blob:" ++ decimal n.

(** [files.map(file => ({ file, preview: URL.createObjectURL(file) }))],
    the handles numbered from [n]. *)
Fixpoint previews (n : nat) (fs : list File) : list ImageData :=
  match fs with
  | [] => []
  | f :: tl => {| file := f; preview := createObjectURL n |} :: previews (S n) tl
  end.

Definition too_many_images : Toast :=
  {| title := str "Error";
     message := str "You can only upload a maximum of " ++ decimal MAX_IMAGES
                ++ str " images.";
     variant := Some (str "destructive") |}.

(** [list.filter((_, i) => i !== index)] *)
Fixpoint filter_other_index {A} (index : nat) (i : nat) (l : list A) : list A :=
  match l with
  | [] => []
  | x :: tl =>
      if negb (Nat.eqb i index)
      then x :: filter_other_index index (S i) tl
      else filter_other_index index (S i) tl
  end.

(** [removeImage], the same text in the three components. *)
Definition removeImage (index : nat) s : state R :=
  setResults (filter_other_index index 0)
    (setImages (filter_other_index index 0) s).

(** [handleImageUpload] of [Home] and of the [Index] stored after it: the
    selection replaces the images and the results are dropped. *)
Definition handleImageUpload (chosen : list File) s : state R :=
  if Nat.ltb MAX_IMAGES (length chosen) then
    toast too_many_images s
  else
    let s1 := setResults (fun _ => []) (setImages (fun _ => []) s) in
    let newImages := previews (objectURLs s1) chosen in
    let s2 := State (images s1) (results s1) (isLoading s1) (toasts s1)
                (console s1) (fileInput s1) (objectURLs s1 + length chosen) in
    setImages (fun _ => newImages) s2.

(** [clearAll] of the same two components. *)
Definition clearAll s : state R :=
  let s1 := setResults (fun _ => []) (setImages (fun _ => []) s) in
  match fileInput s1 with
  | Some el => setFileInput (Some (set_value_empty el)) s1
  | None => s1
  end.

(** The user picks files in the file dialog: the element takes the
    selection, then its [onChange] handler runs on it. *)
Definition change (onChange : list File -> state R -> state R)
    (chosen : list File) s : state R :=
  match fileInput s with
  | Some _ => onChange chosen (setFileInput (Some {| files := chosen |}) s)
  | None => s
  end.

(** What the file picker shows: nothing when it is not on the page. *)
Definition displayed_value s : jsstring :=
  match fileInput s with
  | Some el => value el
  | None => []
  end.

(** The result table: row [index] shows [images[index].preview] next to
    the result, and reading [preview] of [undefined] throws. *)
Fixpoint rows (imgs : list ImageData) (index : nat) (rs : list R)
    : completion (list (jsstring * R)) :=
  match rs with
  | [] => Normal []
  | r :: tl =>
      match imgs !! index with
      | None => Throw undefined_receiver
      | Some image =>
          let* below := rows imgs (S index) tl in
          Normal ((preview image, r) :: below)
      end
  end.

Definition render_results s : completion (list (jsstring * R)) :=
  rows (images s) 0 (results s).

End Setters.

(** The line under a description in the result table:
    [result.description.length] and [result.description.split(' ').length]. *)
Definition characters (d : jsstring) : nat := length d.
Definition words (d : jsstring) : nat := length (split 32 d).

(** What the copy button of the keywords cell passes to [copyToClipboard]:
    [result.keywords.join(', ')]. *)
Definition copied_keywords (ks : list jsstring) : jsstring := join (str ", ") ks.

End Client.

(** ** [Home], the page component of [src/pages/index.tsx] *)

Module Home.
Import Client.

(** A literal marker, a lazily captured run of [.], then a line feed or
    the end of the input: the shape of the two patterns below. *)
Definition line_pattern (marker : jsstring) : regex :=
  Seq (Lit marker) (Seq (Capture 1 (Repeat Dot 0 false)) (Alt (Lit [10]) EndOfInput)).

(** [/Description: (.*?)(?:\n|$)/] *)
Definition description_pattern : regex :=
  Seq (Lit (str "Description: "))
      (Seq (Capture 1 (Repeat Dot 0 false)) (Alt (Lit [10]) EndOfInput)).

(** [/Keywords: (.*?)(?:\n|$)/] *)
Definition keywords_pattern : regex :=
  Seq (Lit (str "Keywords: "))
      (Seq (Capture 1 (Repeat Dot 0 false)) (Alt (Lit [10]) EndOfInput)).

(** [/Tokens used: (\d+)/] *)
Definition tokens_pattern : regex :=
  Seq (Lit (str "Tokens used: ")) (Capture 1 (Repeat Digit 1 true)).

Definition parseResponse (content : jsstring) : completion Result :=
  let descriptionMatch := string_match description_pattern content in
  let keywordsMatch := string_match keywords_pattern content in
  let tokensUsedMatch := string_match tokens_pattern content in
  let* d :=
    match descriptionMatch with
    | Some m => let* g := receiver (group m 1) in Normal (trim g)
    | None => Normal []
    end in
  let* k :=
    match keywordsMatch with
    | Some m => let* g := receiver (group m 1) in Normal (map trim (split 44 g))
    | None => Normal []
    end in
  let* t :=
    match tokensUsedMatch with
    | Some m => let* g := receiver (group m 1) in Normal (parseInt g)
    | None => Normal (Num 0)
    end in
  Normal {| description := d; keywords := k; tokensUsed := t |}.

(** The argument of [fetch]; [body] is the value [JSON.stringify] is
    applied to. *)
Record Request := {
  url : jsstring;
  method : jsstring;
  headers : list (jsstring * jsstring);
  body : json
}.

(** A [Response]: its [ok] flag and what awaiting [json()] gives. *)
Record Response := {
  ok : bool;
  json_body : completion json
}.

(** What the platform answers during one iteration of the loop: the file
    reader behind [convertToBase64] and the network behind [fetch]. *)
Record world := {
  readAsDataURL : File -> completion jsstring;
  fetch : Request -> completion Response
}.

Definition convertToBase64 (w : world) (f : File) : completion jsstring :=
  readAsDataURL w f.

Definition prompt : jsstring :=
  str "Generate a description and keywords (minimum " ++ decimal MIN_KEYWORDS
  ++ str ", maximum " ++ decimal MAX_KEYWORDS
  ++ str ") for an image with no mention of trademarks. The description should be concise (up to "
  ++ decimal MAX_DESCRIPTION_CHARS
  ++ str " characters). Keywords should follow SEO best practices and be in 1-word format, as relevant to the image as possible.".

Definition payload (base64Image : jsstring) : json :=
  JObject
    [(str "model", JString (str "gpt-4-vision-preview"));
     (str "messages",
      JArray
        [JObject
           [(str "role", JString (str "user"));
            (str "content",
             JArray
               [JObject [(str "type", JString (str "text"));
                         (str "text", JString prompt)];
                JObject [(str "type", JString (str "image_url"));
                         (str "image_url",
                          JObject [(str "url", JString base64Image)])]])]]);
     (str "max_tokens", JNumber (Num 300))].

(** [content.match] exists on strings only. *)
Definition as_string (v : option json) : completion jsstring :=
  match v with
  | Some (JString s) => Normal s
  | None => Throw undefined_receiver
  | Some JNull => Throw (TypeError (str "Cannot read properties of null"))
  | Some _ => Throw (TypeError (str "content.match is not a function"))
  end.

(** The body of the [try] block for one image. *)
Definition process_image (w : world) (image : ImageData) : completion Result :=
  let* base64Image := convertToBase64 w (file image) in
  let* response :=
    fetch w {| url := str "/api/generate";
               method := str "POST";
               headers := [(str "Content-Type", str "application/json")];
               body := payload base64Image |} in
  if negb (ok response) then
    Throw (Error (str "Failed to generate description and keywords"))
  else
    let* data := json_body response in
    let* choices := get (Some data) (str "choices") in
    let* choice := get_index choices 0 in
    let* msg := get choice (str "message") in
    let* content := get msg (str "content") in
    let* text := as_string content in
    let* parsed := parseResponse text in
    Normal {| description := description parsed;
              keywords := keywords parsed;
              tokensUsed := tokensUsed parsed |}.

Definition failed_to_process : Toast :=
  {| title := str "Error";
     message := str "Failed to process image. Please try again.";
     variant := Some (str "destructive") |}.

(** A call of [generateDescriptionAndKeywords] suspended at the awaits of
    one iteration: the images of its own [images] still to go (the first
    one being processed) and its local [newResults]. *)
Record task := {
  remaining : list ImageData;
  newResults : list Result
}.

(** The component together with the call in flight, if any. *)
Record app := App {
  ui : state Result;
  running : option task
}.

Definition initial : app := App mounted None.

(** The head of the [for] loop: suspend on the next image, or leave the
    loop and run [setResults(newResults); setIsLoading(false)]. *)
Definition continue_loop (todo : list ImageData) (acc : list Result)
    (s : state Result) : app :=
  match todo with
  | [] => App (setIsLoading false (setResults (fun _ => acc) s)) None
  | _ :: _ => App s (Some {| remaining := todo; newResults := acc |})
  end.

(** The call itself, up to its first await.  The loop ranges over the
    [images] of the render the handler belongs to. *)
Definition generateDescriptionAndKeywords (a : app) : app :=
  continue_loop (images (ui a)) [] (setIsLoading true (ui a)).

(** The awaits of the current iteration settle as [w] says; the iteration
    reads and writes only its own locals in between, so they are taken in
    one step.  Then the loop goes on. *)
Definition settle (w : world) (a : app) : app :=
  match running a with
  | None => a
  | Some t =>
      match remaining t with
      | [] => a
      | image :: todo =>
          match process_image w image with
          | Normal r => continue_loop todo (newResults t ++ [r]) (ui a)
          | Throw error =>
              continue_loop todo (newResults t)
                (toast failed_to_process
                   (console_error (str "Error processing image:") error (ui a)))
          end
      end
  end.

(** What can happen to the page.  The Generate button is disabled while
    [images.length === 0 || isLoading]; the other controls are always
    enabled. *)
Inductive event :=
| Change (chosen : list File)
| ClickRemove (index : nat)
| ClickGenerate
| ClickClearAll
| Settled (w : world).

Definition on_ui (f : state Result -> state Result) (a : app) : app :=
  App (f (ui a)) (running a).

Definition step (a : app) (e : event) : app :=
  match e with
  | Change chosen => on_ui (change handleImageUpload chosen) a
  | ClickRemove index => on_ui (removeImage index) a
  | ClickGenerate =>
      if bool_decide (images (ui a) = []) || isLoading (ui a) then a
      else generateDescriptionAndKeywords a
  | ClickClearAll => on_ui clearAll a
  | Settled w => settle w a
  end.

Definition run (a : app) (es : list event) : app := fold_left step es a.

(** A whole call with nothing in between: the call and, for each image in
    turn, the settling of its awaits. *)
Definition generate_to_completion (ws : list world) (a : app) : app :=
  run (generateDescriptionAndKeywords a) (map Settled ws).

(** The outcome of each iteration, and the entries the successful ones push. *)
Definition outcomes (imgs : list ImageData) (ws : list world) : list (completion Result) :=
  zip_with (fun image w => process_image w image) imgs ws.

Definition pushed (outs : list (completion Result)) : list Result :=
  omap (fun o => match o with Normal r => Some r | Throw _ => None end) outs.

Definition thrown (outs : list (completion Result)) : list js_error :=
  omap (fun o => match o with Normal _ => None | Throw e => Some e end) outs.

End Home.

(** ** [Index], the component stored after [Home] in [src/pages/index.tsx]

    It shares [handleImageUpload], [removeImage] and [clearAll] with
    [Home]; its generation is a placeholder without any await. *)

Module IndexRef.
Import Client.

(** [Array.from({ length: n }, (_, i) => `keyword${i + 1}`)] *)
Definition placeholder_keywords (n : nat) : list jsstring :=
  map (fun i => str "keyword" ++ decimal (i + 1)) (seq 0 n).

(** [random index] is [Math.floor(Math.random() * 100)] as drawn for the
    image at [index]. *)
Definition placeholder (random : nat -> Z) (index : nat) : Result :=
  {| description :=
       str "This is a sample description for image " ++ decimal (index + 1)
       ++ str ". It showcases the content and style of the image, following SEO principles without using trademarks. The description is concise yet informative.";
     keywords := placeholder_keywords MIN_KEYWORDS;
     tokensUsed := Num (random index + 50) |}.

Definition generateDescriptionAndKeywords (random : nat -> Z)
    (s : state Result) : state Result :=
  let s1 := setIsLoading true s in
  let placeholderResults := imap (fun index _ => placeholder random index) (images s1) in
  setIsLoading false (setResults (fun _ => placeholderResults) s1).

Inductive event :=
| Change (chosen : list File)
| ClickRemove (index : nat)
| ClickGenerate (random : nat -> Z)
| ClickClearAll.

Definition step (s : state Result) (e : event) : state Result :=
  match e with
  | Change chosen => change handleImageUpload chosen s
  | ClickRemove index => removeImage index s
  | ClickGenerate random =>
      if bool_decide (images s = []) || isLoading s then s
      else generateDescriptionAndKeywords random s
  | ClickClearAll => clearAll s
  end.

Definition run (s : state Result) (es : list event) : state Result :=
  fold_left step es s.

End IndexRef.

(** ** [Index], the page component of [src/pages/Index.jsx]

    A selection is appended to the images, nothing refers to the file
    input, and a result entry has no token count. *)

Module Index.
Import Client.

Record PlaceholderResult := {
  description : jsstring;
  keywords : list jsstring
}.

Definition handleImageUpload (chosen : list File)
    (s : state PlaceholderResult) : state PlaceholderResult :=
  if Nat.ltb MAX_IMAGES (length (images s) + length chosen) then
    toast too_many_images s
  else
    let newImages := previews (objectURLs s) chosen in
    let s1 := State (images s) (results s) (isLoading s) (toasts s)
                (console s) (fileInput s) (objectURLs s + length chosen) in
    setImages (fun prevImages => prevImages ++ newImages) s1.

Definition placeholder (index : nat) : PlaceholderResult :=
  {| description :=
       str "Placeholder description for image " ++ decimal (index + 1)
       ++ str ". This is a sample text to demonstrate the layout and functionality of the application.";
     keywords := IndexRef.placeholder_keywords 40 |}.

Definition generateDescriptionAndKeywords
    (s : state PlaceholderResult) : state PlaceholderResult :=
  let s1 := setIsLoading true s in
  let placeholderResults := imap (fun index _ => placeholder index) (images s1) in
  setIsLoading false (setResults (fun _ => placeholderResults) s1).

Definition clearAll (s : state PlaceholderResult) : state PlaceholderResult :=
  setResults (fun _ => []) (setImages (fun _ => []) s).

Inductive event :=
| Change (chosen : list File)
| ClickRemove (index : nat)
| ClickGenerate
| ClickClearAll.

Definition step (s : state PlaceholderResult) (e : event) : state PlaceholderResult :=
  match e with
  | Change chosen => change handleImageUpload chosen s
  | ClickRemove index => removeImage index s
  | ClickGenerate =>
      if bool_decide (images s = []) || isLoading s then s
      else generateDescriptionAndKeywords s
  | ClickClearAll => clearAll s
  end.

Definition run (s : state PlaceholderResult) (es : list event) : state PlaceholderResult :=
  fold_left step es s.

End Index.

(** * Notions used by the statements *)

Module Notions.
Import Client.

(** The two lists are aligned when every result has an image at its index. *)
Definition aligned {R} (s : state R) : Prop :=
  (length (results s) <= length (images s))%nat.

(** The catch block of [Home], once per thrown value. *)
Definition report (errors : list js_error) (s : state Result) : state Result :=
  fold_left
    (fun s e => toast Home.failed_to_process
                  (console_error (str "Error processing image:") e s))
    errors s.

(** The operations of [Home] when each one ends before the next begins:
    a generation is then the call together with the settling of every
    iteration, [answers index] being what the platform answers for the
    image at [index]. *)
Inductive operation :=
| SelectImages (chosen : list File)
| RemoveImage (index : nat)
| Generate (answers : nat -> Home.world)
| ClearAll.

Definition events_of (s : state Result) (op : operation) : list Home.event :=
  match op with
  | SelectImages chosen => [Home.Change chosen]
  | RemoveImage index => [Home.ClickRemove index]
  | Generate answers =>
      Home.ClickGenerate
      :: map (fun index => Home.Settled (answers index)) (seq 0 (length (images s)))
  | ClearAll => [Home.ClickClearAll]
  end.

Definition perform (a : Home.app) (op : operation) : Home.app :=
  Home.run a (events_of (Home.ui a) op).

Definition perform_all (a : Home.app) (ops : list operation) : Home.app :=
  fold_left perform ops a.

(** Group 1 of the match of a pattern, when there is one. *)
Definition captured (pattern : regex) (content : jsstring) : option jsstring :=
  match string_match pattern content with
  | Some m => group m 1
  | None => None
  end.

(** A string that [trim] would leave alone: no white space or line
    terminator at either end. *)
Definition bare (s : jsstring) : Prop :=
  (forall c, head s = Some c -> is_trimmed c = false)
  /\ (forall c, last s = Some c -> is_trimmed c = false).

Definition one_line (s : jsstring) : Prop :=
  Forall (fun c => is_line_terminator c = false) s.


(** The marker starts at no index of [content] below [n]. *)
Definition not_before (marker content : jsstring) (n : nat) : Prop :=
  forall i, (i < n)%nat -> strip_prefix marker (drop i content) = None.

(** The marker starts at index [n] of [content] at most. *)
Definition only_at (marker content : jsstring) (n : nat) : Prop :=
  forall i, i <> n -> strip_prefix marker (drop i content) = None.

(** A keyword as [parseResponse] leaves it. *)
Definition clean_keyword (k : jsstring) : Prop :=
  bare k /\ one_line k /\ ~ In 44 k.

(** What follows a captured line: the end of the text or a line feed. *)
Definition ends_line (tail : jsstring) : Prop :=
  tail = [] \/ exists t, tail = 10 :: t.


(** Every answer a run of the handler sends. *)
Definition responses (trace : list Proxy.effect) : list (N * json) :=
  omap (fun e => match e with Proxy.Respond st b => Some (st, b) | _ => None end) trace.

(** What [Home] keeps true between a call in flight and [isLoading]. *)
Definition loading_tracks_call (a : Home.app) : Prop :=
  match Home.running a with
  | None => isLoading (Home.ui a) = false
  | Some t => isLoading (Home.ui a) = true /\ Home.remaining t <> []
  end.

(** The answers of the platform among the events, in order. *)
Definition settles (es : list Home.event) : list Home.world :=
  omap (fun e => match e with Home.Settled w => Some w | _ => None end) es.

(** The last event is the settling of an iteration. *)
Definition ends_settled (es : list Home.event) : Prop :=
  match last es with
  | Some (Home.Settled _) => True
  | _ => False
  end.

(** The request [Home] sends for an image read as [base64Image]. *)
Definition generate_request (base64Image : jsstring) : Home.Request :=
  {| Home.url := str "/api/generate";
     Home.method := str "POST";
     Home.headers := [(str "Content-Type", str "application/json")];
     Home.body := Home.payload base64Image |}.

(** [data.choices[0].message.content] *)
Definition message_content (data : json) : completion (option json) :=
  let* choices := get (Some data) (str "choices") in
  let* choice := get_index choices 0 in
  let* msg := get choice (str "message") in
  get msg (str "content").

(** The page wired to the route: [fetch] hands the method and the JSON
    body of the request to [handler] and gives back its answer, [ok] being
    a status from 200 to 299. *)
Definition through_proxy (create : option json -> completion json)
    (reader : File -> completion jsstring) : Home.world :=
  {| Home.readAsDataURL := reader;
     Home.fetch := fun req =>
       match Proxy.response_of
               (Proxy.handler create
                  {| Proxy.method := Some (Home.method req);
                     Proxy.body := Some (Home.body req) |}) with
       | Some (status, answer) =>
           Normal {| Home.ok := (200 <=? status) && (status <=? 299);
                     Home.json_body := Normal answer |}
       | None => Throw (Rejected (str "no response"))
       end |}.

End Notions.

(** * Sample inputs *)

Module Samples.
Import Client.

Definition a_post : Proxy.NextApiRequest :=
  {| Proxy.method := Some (str "POST"); Proxy.body := Some (JObject []) |}.

Definition a_get : Proxy.NextApiRequest :=
  {| Proxy.method := Some (str "GET"); Proxy.body := None |}.

Definition service_down (_ : option json) : completion json :=
  Throw (Rejected (str "connect ECONNREFUSED 10.0.0.7:443")).

Definition cat_text : jsstring :=
  str "Description: A cat." ++ [10] ++ str "Keywords: cat, pet, animal" ++ [10]
  ++ str "Tokens used: 42".

Definition cat_result : Result :=
  {| description := str "A cat.";
     keywords := [str "cat"; str "pet"; str "animal"];
     tokensUsed := Num 42 |}.

Definition cat_file : File := {| name := str "cat.png"; bytes := str "PNG-cat" |}.
Definition dog_file : File := {| name := str "dog.png"; bytes := str "PNG-dog" |}.
Definition six_files : list File := replicate 6 cat_file.

(** The completion service answers with [cat_text]. *)
Definition answering : Home.world :=
  {| Home.readAsDataURL := fun f => Normal (str "data:image/png;base64," ++ bytes f);
     Home.fetch := fun _ =>
       Normal {| Home.ok := true;
                 Home.json_body :=
                   Normal (JObject
                     [(str "choices",
                       JArray [JObject
                         [(str "message",
                           JObject [(str "content", JString cat_text)])]])]) |} |}.

(** The proxy answers 500. *)
Definition failing : Home.world :=
  {| Home.readAsDataURL := fun f => Normal (str "data:image/png;base64," ++ bytes f);
     Home.fetch := fun _ =>
       Normal {| Home.ok := false;
                 Home.json_body :=
                   Normal (JObject
                     [(str "error", JString (str "Error processing your request"))]) |} |}.

(** [Home] with two images selected. *)
Definition two_selected : Home.app :=
  Home.run Home.initial [Home.Change [cat_file; dog_file]].

(** [Index.jsx] with one image and its placeholder result. *)
Definition one_generated : state Index.PlaceholderResult :=
  Index.run mounted [Index.Change [cat_file]; Index.ClickGenerate].

(** Select an image, start the generation, press Clear All while the
    request is pending, then the request succeeds. *)
Definition cleared_while_pending : list Home.event :=
  [Home.Change [cat_file]; Home.ClickGenerate; Home.ClickClearAll;
   Home.Settled answering].

End Samples.

(** * Properties *)

(** ** The proxy endpoint *)

Section ProxyProperties.
Import Proxy Samples.

(** C1. A POST whose call of the completion service throws is answered
    with status 500 and the fixed body [{"error": "Error processing your
    request"}]: the answer is the same whatever was thrown, and the thrown
    value goes to the server console only. *)
Theorem handler_downstream_failure
    (create : option json -> completion json) (req : NextApiRequest) (error : js_error) :
  method req = Some (str "POST") ->
  create (body req) = Throw error ->
  handler create req
  = [ServiceCall (body req);
     ConsoleError (str "OpenAI API error:") error;
     Respond 500 (JObject [(str "error", JString (str "Error processing your request"))])]
  /\ response_of (handler create req)
     = Some (500, JObject [(str "error", JString (str "Error processing your request"))]).
Proof.
  intros Hpost Hthrow. unfold handler.
  rewrite bool_decide_eq_true_2 by exact Hpost. cbn [negb].
  rewrite Hthrow. split; reflexivity.
Qed.

Lemma handler_downstream_failure_witness :
  response_of (handler service_down a_post)
  = Some (500, JObject [(str "error", JString (str "Error processing your request"))]).
Proof.
  eapply proj2.
  apply (handler_downstream_failure service_down a_post
           (Rejected (str "connect ECONNREFUSED 10.0.0.7:443"))); reflexivity.
Defined.

(** C2. A request whose method is not POST is answered with status 405 and
    the body [{"error": "Method not allowed"}], and that answer is all the
    handler does: the completion service is not called. *)
Theorem handler_method_not_allowed
    (create : option json -> completion json) (req : NextApiRequest) :
  method req <> Some (str "POST") ->
  handler create req
  = [Respond 405 (JObject [(str "error", JString (str "Method not allowed"))])]
  /\ response_of (handler create req)
     = Some (405, JObject [(str "error", JString (str "Method not allowed"))])
  /\ service_calls (handler create req) = [].
Proof.
  intros Hother. unfold handler.
  rewrite bool_decide_eq_false_2 by exact Hother. cbn [negb].
  repeat split; reflexivity.
Qed.

Lemma handler_method_not_allowed_witness :
  response_of (handler service_down a_get)
  = Some (405, JObject [(str "error", JString (str "Method not allowed"))])
  /\ service_calls (handler service_down a_get) = [].
Proof.
  eapply proj2.
  apply (handler_method_not_allowed service_down a_get).
  vm_compute. discriminate.
Defined.

End ProxyProperties.

(** ** Strings and patterns *)

Section PatternProperties.
Import Client Home.

Lemma strip_prefix_app p q s t :
  strip_prefix (p ++ q) s = Some t -> exists t', strip_prefix p s = Some t'.
Proof.
  revert s. induction p as [|a p IH]; intros s H; cbn in *.
  - eauto.
  - destruct s as [|b s]; [discriminate|].
    destruct (a =? b); [eauto | discriminate].
Qed.

Lemma includes_app s p q : includes s (p ++ q) = true -> includes s p = true.
Proof.
  induction s as [|c s IH]; cbn [includes].
  - destruct (strip_prefix (p ++ q) []) eqn:E; [|discriminate].
    apply strip_prefix_app in E as [t' ->]. reflexivity.
  - destruct (strip_prefix (p ++ q) (c :: s)) eqn:E.
    + apply strip_prefix_app in E as [t' ->]. reflexivity.
    + intros H. apply IH in H. rewrite H. destruct (strip_prefix p (c :: s)); reflexivity.
Qed.

Lemma strip_prefix_spec p s t : strip_prefix p s = Some t <-> s = p ++ t.
Proof.
  revert s. induction p as [|a p IH]; intros s; cbn.
  - destruct s; split; congruence.
  - destruct s as [|b s]; [split; discriminate|].
    destruct (N.eqb_spec a b) as [->|Hne].
    + rewrite IH. split; congruence.
    + split; [discriminate | congruence].
Qed.

(** [includes] is the occurrence of [p] somewhere in [s]. *)
Lemma includes_spec s p :
  includes s p = true <-> exists before after, s = before ++ p ++ after.
Proof.
  induction s as [|c s IH]; cbn [includes].
  - destruct (strip_prefix p []) as [t|] eqn:E.
    + apply strip_prefix_spec in E. split; [|reflexivity].
      intros _. exists [], t. exact E.
    + split; [discriminate|]. intros (b & a & H).
      destruct b; [|discriminate]. cbn in H.
      apply strip_prefix_spec in H. congruence.
  - destruct (strip_prefix p (c :: s)) as [t|] eqn:E.
    + apply strip_prefix_spec in E. split; [|reflexivity].
      intros _. exists [], t. exact E.
    + rewrite IH. split.
      * intros (b & a & ->). exists (c :: b), a. reflexivity.
      * intros (b & a & H). destruct b as [|c' b].
        -- cbn in H. apply strip_prefix_spec in H. congruence.
        -- injection H as -> ->. eauto.
Qed.

(** A repetition only ever succeeds through its continuation, and leaves
    the captures as they are. *)
Lemma repeat_matcher_some cls greedy min input caps c z :
  repeat_matcher cls greedy min input caps c = Some z ->
  exists tl, c (MatchState tl caps) = Some z.
Proof.
  revert min. induction input as [|ch tl IH]; intros min H; cbn in H.
  - destruct min; [eauto | discriminate].
  - destruct min as [|min].
    + destruct greedy.
      * destruct (class_matches cls ch).
        -- destruct (repeat_matcher cls true (pred 0) tl caps c) eqn:E.
           ++ injection H as <-. eapply IH, E.
           ++ eauto.
        -- eauto.
      * destruct (c (MatchState (ch :: tl) caps)) eqn:E.
        -- injection H as <-. eauto.
        -- destruct (class_matches cls ch); [eapply IH, H | discriminate].
    + destruct (class_matches cls ch); [eapply IH, H | discriminate].
Qed.

Lemma line_pattern_matcher marker s caps z :
  matcher (line_pattern marker) (MatchState s caps) Some = Some z ->
  (exists t, strip_prefix marker s = Some t)
  /\ exists g, captures z = <[1%nat := Some g]> caps.
Proof.
  cbn. destruct (strip_prefix marker s) as [t|] eqn:E; [|discriminate].
  intros H. split; [eauto|].
  apply repeat_matcher_some in H as [tl H]. cbn in H.
  repeat case_match; simplify_eq; cbn; eauto.
Qed.

(** When a line pattern matches, its marker occurs in the text and group 1
    took part in the match. *)
Lemma line_pattern_match marker content m :
  string_match (line_pattern marker) content = Some m ->
  includes content marker = true /\ exists whole g, m = [Some whole; Some g].
Proof.
  induction content as [|c content IH]; cbn [string_match includes].
  - destruct (matcher _ _ Some) as [z|] eqn:E; [|discriminate].
    intros [= <-]. apply line_pattern_matcher in E as [[t ->] [g ->]]. cbn. eauto.
  - destruct (matcher _ _ Some) as [z|] eqn:E.
    + intros [= <-]. apply line_pattern_matcher in E as [[t ->] [g ->]]. cbn. eauto.
    + intros H. apply IH in H as [-> H]. split; [|exact H].
      destruct (strip_prefix marker (c :: content)); reflexivity.
Qed.

Lemma tokens_pattern_matcher s caps z :
  matcher tokens_pattern (MatchState s caps) Some = Some z ->
  (exists t, strip_prefix (str "Tokens used: ") s = Some t)
  /\ exists g, captures z = <[1%nat := Some g]> caps.
Proof.
  unfold tokens_pattern. cbn [matcher rest captures].
  destruct (strip_prefix _ s) as [t|] eqn:E; [|discriminate].
  intros H. split; [eauto|].
  apply repeat_matcher_some in H as [tl H]. cbn in H.
  injection H as <-. cbn. eauto.
Qed.

Lemma tokens_pattern_match content m :
  string_match tokens_pattern content = Some m ->
  includes content (str "Tokens used: ") = true
  /\ exists whole g, m = [Some whole; Some g].
Proof.
  induction content as [|c content IH]; cbn [string_match includes].
  - destruct (matcher _ _ Some) as [z|] eqn:E; [|discriminate].
    intros [= <-]. apply tokens_pattern_matcher in E as [[t ->] [g ->]]. cbn. eauto.
  - destruct (matcher _ _ Some) as [z|] eqn:E.
    + intros [= <-]. apply tokens_pattern_matcher in E as [[t ->] [g ->]]. cbn. eauto.
    + intros H. apply IH in H as [-> H]. split; [|exact H].
      destruct (strip_prefix _ (c :: content)); reflexivity.
Qed.

(** The conditional [m ? f(m[1]) : dflt] of [parseResponse]: it does not
    throw, and it is [dflt] when the marker does not occur. *)
Lemma capture_or_default {A} (pattern : regex) (marker tail : jsstring)
    (f : jsstring -> A) (dflt : A) (content : jsstring) :
  (forall m, string_match pattern content = Some m ->
     includes content (marker ++ tail) = true
     /\ exists whole g, m = [Some whole; Some g]) ->
  exists v,
    match string_match pattern content with
    | Some m => let* g := receiver (group m 1) in Normal (f g)
    | None => Normal dflt
    end = Normal v
    /\ (includes content marker = false -> v = dflt).
Proof.
  intros Hm. destruct (string_match pattern content) as [m|].
  - destruct (Hm m eq_refl) as [Hin (whole & g & ->)].
    apply includes_app in Hin. exists (f g). split; [reflexivity|]. congruence.
  - exists dflt. split; [reflexivity | trivial].
Qed.

(** C4. The text made of the lines [Description: A cat.], [Keywords: cat,
    pet, animal] and [Tokens used: 42] parses to the description [A cat.],
    the keywords [cat], [pet], [animal] and the token count 42. *)
Theorem parseResponse_cat :
  parseResponse
    (str "Description: A cat." ++ [10] ++ str "Keywords: cat, pet, animal" ++ [10]
     ++ str "Tokens used: 42")
  = Normal {| description := str "A cat.";
              keywords := [str "cat"; str "pet"; str "animal"];
              tokensUsed := Num 42 |}.
Proof. vm_compute. reflexivity. Qed.

(** C5. On every string [parseResponse] returns normally, and a field
    whose marker ([Description:], [Keywords:], [Tokens used:]) does not
    occur in the text is the empty string, the empty list, or 0. *)
Theorem parseResponse_defaults (content : jsstring) :
  exists r, parseResponse content = Normal r
  /\ (includes content (str "Description:") = false -> description r = [])
  /\ (includes content (str "Keywords:") = false -> keywords r = [])
  /\ (includes content (str "Tokens used:") = false -> tokensUsed r = Num 0).
Proof.
  unfold parseResponse. cbv zeta.
  match goal with |- context [bind ?X _] =>
    assert (exists v, X = Normal v
            /\ (includes content (str "Description:") = false -> v = []))
      as (d & -> & Hd)
      by (apply (capture_or_default _ _ (str " ")); intros m;
          apply (line_pattern_match (str "Description: ")))
  end.
  cbn [bind].
  match goal with |- context [bind ?X _] =>
    assert (exists v, X = Normal v
            /\ (includes content (str "Keywords:") = false -> v = []))
      as (k & -> & Hk)
      by (apply (capture_or_default _ _ (str " ")); intros m;
          apply (line_pattern_match (str "Keywords: ")))
  end.
  cbn [bind].
  match goal with |- context [bind ?X _] =>
    assert (exists v, X = Normal v
            /\ (includes content (str "Tokens used:") = false -> v = Num 0))
      as (t & -> & Ht)
      by (apply (capture_or_default _ _ (str " ")); intros m;
          apply tokens_pattern_match)
  end.
  cbn [bind].
  eexists. split; [reflexivity|]. auto.
Qed.

(** A marker that is there does not always give a field: [.] does not
    cross a carriage return, and the pattern wants a line feed or the end
    of the text after the captured run. *)
Example parseResponse_carriage_return :
  parseResponse (str "Description: A cat." ++ [13; 10] ++ str "Tokens used: 007")
  = Normal {| description := []; keywords := []; tokensUsed := Num 7 |}.
Proof. vm_compute. reflexivity. Qed.

(** An empty keyword line gives one empty keyword. *)
Example parseResponse_empty_keywords :
  parseResponse (str "Keywords: " ++ [10] ++ str "Description:   two  words  ")
  = Normal {| description := str "two  words"; keywords := [[]]; tokensUsed := Num 0 |}.
Proof. vm_compute. reflexivity. Qed.

Lemma parseResponse_defaults_witness :
  exists r, parseResponse (str "A photo of a cat.") = Normal r
  /\ description r = [] /\ keywords r = [] /\ tokensUsed r = Num 0.
Proof.
  destruct (parseResponse_defaults (str "A photo of a cat.")) as (r & Hr & Hd & Hk & Ht).
  exists r. split; [exact Hr|].
  split; [apply Hd; reflexivity|].
  split; [apply Hk; reflexivity | apply Ht; reflexivity].
Defined.

End PatternProperties.

(** ** Selecting, removing and clearing *)

Section ControllerProperties.
Import Client Notions Samples.

(** C3. A selection of more than five files leaves the images and the
    results as they were and shows the error notification, in [Home] and
    the [Index] stored after it as in [Index.jsx]. *)
Theorem oversized_selection_rejected (chosen : list File) :
  (MAX_IMAGES < length chosen)%nat ->
  (forall s : state Result,
     images (handleImageUpload chosen s) = images s
     /\ results (handleImageUpload chosen s) = results s
     /\ toasts (handleImageUpload chosen s) = toasts s ++ [too_many_images])
  /\ (forall s : state Index.PlaceholderResult,
     images (Index.handleImageUpload chosen s) = images s
     /\ results (Index.handleImageUpload chosen s) = results s
     /\ toasts (Index.handleImageUpload chosen s) = toasts s ++ [too_many_images]).
Proof.
  intros Hmany. split; intros s.
  - unfold handleImageUpload.
    replace (MAX_IMAGES <? length chosen)%nat with true
      by (symmetry; apply Nat.ltb_lt; exact Hmany).
    repeat split.
  - unfold Index.handleImageUpload.
    replace (MAX_IMAGES <? length (images s) + length chosen)%nat with true
      by (symmetry; apply Nat.ltb_lt; lia).
    repeat split.
Qed.

Lemma oversized_selection_rejected_witness :
  images (Home.ui (Home.step two_selected (Home.Change six_files)))
  = images (Home.ui two_selected)
  /\ results (Home.ui (Home.step two_selected (Home.Change six_files)))
     = results (Home.ui two_selected)
  /\ toasts (Home.ui (Home.step two_selected (Home.Change six_files)))
     = toasts (Home.ui two_selected) ++ [too_many_images].
Proof.
  assert (MAX_IMAGES < length six_files)%nat as Hmany by (vm_compute; lia).
  exact (proj1 (oversized_selection_rejected six_files Hmany)
           (setFileInput (Some {| files := six_files |}) (Home.ui two_selected))).
Defined.

Lemma filter_other_index_past {A} (l : list A) (index i : nat) :
  (index < i)%nat -> filter_other_index index i l = l.
Proof.
  revert i. induction l as [|x l IH]; intros i Hlt; cbn [filter_other_index].
  - reflexivity.
  - replace (i =? index)%nat with false by (symmetry; apply Nat.eqb_neq; lia).
    cbn [negb]. f_equal. apply IH. lia.
Qed.

(** Filtering out one index is deleting the entry at that index. *)
Lemma filter_other_index_delete {A} (l : list A) (i k : nat) :
  filter_other_index (i + k) i l = delete k l.
Proof.
  revert i k. induction l as [|x l IH]; intros i k; cbn [filter_other_index].
  - reflexivity.
  - destruct k as [|k].
    + rewrite Nat.add_0_r, Nat.eqb_refl. cbn [negb].
      apply filter_other_index_past. lia.
    + replace (i =? i + S k)%nat with false by (symmetry; apply Nat.eqb_neq; lia).
      cbn [negb]. cbn [delete list_delete]. f_equal.
      replace (i + S k)%nat with (S i + k)%nat by lia. apply IH.
Qed.

Lemma removeImage_images {R} (s : state R) (index : nat) :
  images (removeImage index s) = delete index (images s).
Proof. apply (filter_other_index_delete (images s) 0 index). Qed.

Lemma removeImage_results {R} (s : state R) (index : nat) :
  results (removeImage index s) = delete index (results s).
Proof. apply (filter_other_index_delete (results s) 0 index). Qed.

(** C7. For [i] within the images, [removeImage i] drops the image at [i]
    and nothing else; it drops the result at [i] and nothing else when
    there is one, and no result otherwise.  The entries before [i] and the
    entries after [i] stay, in their order. *)
Theorem removeImage_deletes_position {R} (s : state R) (i : nat) :
  (i < length (images s))%nat ->
  images (removeImage i s) = take i (images s) ++ drop (S i) (images s)
  /\ length (images (removeImage i s)) = (length (images s) - 1)%nat
  /\ ((i < length (results s))%nat ->
      results (removeImage i s) = take i (results s) ++ drop (S i) (results s)
      /\ length (results (removeImage i s)) = (length (results s) - 1)%nat)
  /\ ((length (results s) <= i)%nat -> results (removeImage i s) = results s).
Proof.
  intros Hi. rewrite removeImage_images, removeImage_results.
  rewrite !delete_take_drop. split; [reflexivity|].
  split; [|split].
  - rewrite length_app, length_take, length_drop. lia.
  - intros Hr. split; [reflexivity|].
    rewrite length_app, length_take, length_drop. lia.
  - intros Hr. rewrite take_ge by lia. rewrite drop_ge by lia. apply app_nil_r.
Qed.

Lemma removeImage_deletes_position_witness :
  images (removeImage 0 (Home.ui two_selected))
  = take 0 (images (Home.ui two_selected)) ++ drop 1 (images (Home.ui two_selected)).
Proof.
  eapply proj1. apply (removeImage_deletes_position (Home.ui two_selected) 0).
  vm_compute. lia.
Defined.

(** C8, as the claim states it, fails in [Index.jsx]: with one image and
    its result on the page, a second file is accepted and the result stays. *)
Lemma Index_selection_keeps_results :
  ~ (forall (s : state Index.PlaceholderResult) (chosen : list File),
       (length chosen <= MAX_IMAGES)%nat ->
       results (Index.handleImageUpload chosen s) = []).
Proof.
  intros Hclear.
  specialize (Hclear one_generated [dog_file]).
  assert (length [dog_file] <= MAX_IMAGES)%nat as Hfew by (vm_compute; lia).
  apply Hclear in Hfew. vm_compute in Hfew. discriminate Hfew.
Qed.

(** C8, amended.  In [Home] and the [Index] stored after it, a selection
    of at most five files replaces the images and leaves no result.  In
    [Index.jsx], a selection that keeps the total within five is appended
    to the images and the results stay as they are. *)
Theorem accepted_selection_results (chosen : list File) :
  (forall s : state Result,
     (length chosen <= MAX_IMAGES)%nat ->
     results (handleImageUpload chosen s) = []
     /\ images (handleImageUpload chosen s) = previews (objectURLs s) chosen)
  /\ (forall s : state Index.PlaceholderResult,
     (length (images s) + length chosen <= MAX_IMAGES)%nat ->
     results (Index.handleImageUpload chosen s) = results s
     /\ images (Index.handleImageUpload chosen s)
        = images s ++ previews (objectURLs s) chosen).
Proof.
  split; intros s Hfew.
  - unfold handleImageUpload.
    replace (MAX_IMAGES <? length chosen)%nat with false
      by (symmetry; apply Nat.ltb_ge; exact Hfew).
    split; reflexivity.
  - unfold Index.handleImageUpload.
    replace (MAX_IMAGES <? length (images s) + length chosen)%nat with false
      by (symmetry; apply Nat.ltb_ge; exact Hfew).
    split; reflexivity.
Qed.

Lemma accepted_selection_results_witness :
  results (handleImageUpload [dog_file] (Home.ui two_selected)) = []
  /\ results (Index.handleImageUpload [dog_file] one_generated) = results one_generated.
Proof.
  split.
  - eapply proj1.
    apply (proj1 (accepted_selection_results [dog_file]) (Home.ui two_selected)).
    vm_compute. lia.
  - eapply proj1.
    apply (proj2 (accepted_selection_results [dog_file]) one_generated).
    vm_compute. lia.
Defined.

(** [clearAll] of [Home] and of the [Index] stored after it empties both
    lists and the file input. *)
Lemma clearAll_resets {R} (s : state R) :
  images (clearAll s) = [] /\ results (clearAll s) = []
  /\ displayed_value (clearAll s) = [].
Proof.
  unfold clearAll, displayed_value.
  destruct s as [imgs rs l ts c [el|] n]; cbn; repeat split.
Qed.

(** C9 in [Index.jsx]: after a file was picked, [clearAll] empties both
    lists but the file input still displays the file. *)
Theorem Index_clearAll_keeps_file_input :
  let s := Index.run mounted [Index.Change [cat_file]; Index.ClickClearAll] in
  images s = [] /\ results s = []
  /\ displayed_value s = str "C:\fakepath\cat.png".
Proof. vm_compute. repeat split. Qed.

End ControllerProperties.

(** ** Generation in [Home] *)

Section GenerationProperties.
Import Client Home Notions Samples.

Lemma report_fields (errors : list js_error) (s : state Result) :
  images (report errors s) = images s
  /\ results (report errors s) = results s
  /\ toasts (report errors s)
     = toasts s ++ replicate (length errors) failed_to_process
  /\ console (report errors s)
     = console s ++ map (fun e => (str "Error processing image:", e)) errors.
Proof.
  revert s. induction errors as [|e errors IH]; intros s.
  - cbn. rewrite !app_nil_r. repeat split.
  - change (report (e :: errors) s)
      with (report errors (toast failed_to_process
                             (console_error (str "Error processing image:") e s))).
    destruct (IH (toast failed_to_process
                   (console_error (str "Error processing image:") e s)))
      as (Hi & Hr & Ht & Hc).
    rewrite Hi, Hr, Ht, Hc.
    cbn [toast console_error images results toasts console length replicate map].
    rewrite <- !app_assoc. repeat split.
Qed.

(** The loop, run to its end: the successful iterations push their result
    in order, every thrown value is reported, and then the results are
    published. *)
Lemma run_loop (todo : list ImageData) (ws : list world)
    (acc : list Result) (s : state Result) :
  length ws = length todo ->
  run (continue_loop todo acc s) (map Settled ws)
  = App (setIsLoading false
           (setResults (fun _ => acc ++ pushed (outcomes todo ws))
              (report (thrown (outcomes todo ws)) s)))
        None.
Proof.
  revert ws acc s. induction todo as [|image todo IH]; intros ws acc s Hlen.
  - destruct ws; [|discriminate]. cbn. rewrite app_nil_r. reflexivity.
  - destruct ws as [|w ws]; [discriminate|]. injection Hlen as Hlen.
    cbn [map run fold_left continue_loop step settle running remaining newResults ui].
    unfold outcomes. cbn [zip_with]. fold (outcomes todo ws).
    destruct (process_image w image) as [r|e].
    + fold (run (continue_loop todo (acc ++ [r]) s) (map Settled ws)).
      rewrite IH by exact Hlen. cbn [pushed thrown omap].
      fold (pushed (outcomes todo ws)). fold (thrown (outcomes todo ws)).
      rewrite <- app_assoc. reflexivity.
    + match goal with |- fold_left step _ (continue_loop _ _ ?s') = _ =>
        fold (run (continue_loop todo acc s') (map Settled ws))
      end.
      rewrite IH by exact Hlen. cbn [pushed thrown omap].
      fold (pushed (outcomes todo ws)). fold (thrown (outcomes todo ws)).
      reflexivity.
Qed.

Lemma generate_to_completion_eq (ws : list world) (a : app) :
  length ws = length (images (ui a)) ->
  generate_to_completion ws a
  = App (setIsLoading false
           (setResults (fun _ => pushed (outcomes (images (ui a)) ws))
              (report (thrown (outcomes (images (ui a)) ws))
                 (setIsLoading true (ui a)))))
        None.
Proof.
  intros Hlen. unfold generate_to_completion, generateDescriptionAndKeywords.
  rewrite run_loop by exact Hlen. reflexivity.
Qed.

Lemma outcomes_split (imgs : list ImageData) (ws : list world) (k : nat)
    (image : ImageData) (w : world) :
  length ws = length imgs ->
  imgs !! k = Some image -> ws !! k = Some w ->
  outcomes imgs ws
  = outcomes (take k imgs) (take k ws)
    ++ process_image w image :: outcomes (drop (S k) imgs) (drop (S k) ws).
Proof.
  intros Hlen Hi Hw. unfold outcomes.
  rewrite <- (take_drop_middle imgs k image Hi) at 1.
  rewrite <- (take_drop_middle ws k w Hw) at 1.
  rewrite zip_with_app; [reflexivity|].
  rewrite !length_take. lia.
Qed.

Lemma outcomes_lookup (imgs : list ImageData) (ws : list world) (j : nat)
    (image : ImageData) (w : world) :
  imgs !! j = Some image -> ws !! j = Some w ->
  outcomes imgs ws !! j = Some (process_image w image).
Proof.
  intros Hi Hw. unfold outcomes. rewrite lookup_zip_with, Hi. cbn. rewrite Hw. reflexivity.
Qed.

Lemma pushed_elem (outs : list (completion Result)) (j : nat) (r : Result) :
  outs !! j = Some (Normal r) -> r ∈ pushed outs.
Proof.
  intros Hj. unfold pushed. apply list_elem_of_omap. exists (Normal r).
  split; [|reflexivity]. eapply list_elem_of_lookup_2, Hj.
Qed.

(** C6. When the pipeline of the image at position [k] throws, the loop
    catches and logs the thrown value, shows the notification, and goes on
    to the end: the results published are the results of the successful
    images before [k] followed by those of the successful images after
    [k], one notification was shown per failed image, and every later
    image whose pipeline succeeds has its result in the list. *)
Theorem generate_continues_after_failure
    (a : app) (ws : list world) (k : nat)
    (image : ImageData) (w : world) (error : js_error) :
  length ws = length (images (ui a)) ->
  images (ui a) !! k = Some image ->
  ws !! k = Some w ->
  process_image w image = Throw error ->
  let a' := generate_to_completion ws a in
  let outs := outcomes (images (ui a)) ws in
  running a' = None
  /\ isLoading (ui a') = false
  /\ images (ui a') = images (ui a)
  /\ results (ui a')
     = pushed (outcomes (take k (images (ui a))) (take k ws))
       ++ pushed (outcomes (drop (S k) (images (ui a))) (drop (S k) ws))
  /\ In (str "Error processing image:", error) (console (ui a'))
  /\ toasts (ui a')
     = toasts (ui a) ++ replicate (length (thrown outs)) failed_to_process
  /\ (0 < length (thrown outs))%nat
  /\ (forall j image' w' r,
        (k < j)%nat -> images (ui a) !! j = Some image' -> ws !! j = Some w' ->
        process_image w' image' = Normal r -> In r (results (ui a'))).
Proof.
  intros Hlen Hi Hw Hthrow a' outs. subst a'.
  rewrite generate_to_completion_eq by exact Hlen. fold outs.
  destruct (report_fields (thrown outs) (setIsLoading true (ui a)))
    as (Himgs & Hres & Htoasts & Hconsole).
  assert (outs = outcomes (take k (images (ui a))) (take k ws)
                 ++ Throw error :: outcomes (drop (S k) (images (ui a))) (drop (S k) ws))
    as Hsplit.
  { subst outs. rewrite <- Hthrow. apply outcomes_split; assumption. }
  cbn [running ui isLoading images results toasts console
       setIsLoading setResults].
  split; [reflexivity|]. split; [reflexivity|]. split; [exact Himgs|].
  split.
  { rewrite Hsplit. unfold pushed. rewrite omap_app. reflexivity. }
  split.
  { apply list_elem_of_In. rewrite Hconsole. apply elem_of_app. right.
    apply list_elem_of_fmap. exists error. split; [reflexivity|].
    rewrite Hsplit. unfold thrown. rewrite omap_app. cbn.
    apply elem_of_app. right. left. }
  split; [exact Htoasts|].
  split.
  { rewrite Hsplit. unfold thrown. rewrite omap_app, length_app. cbn. lia. }
  intros j image' w' r Hkj Hi' Hw' Hok.
  apply list_elem_of_In. apply (pushed_elem outs j). subst outs.
  rewrite (outcomes_lookup _ _ j image' w' Hi' Hw'). rewrite Hok. reflexivity.
Qed.

Lemma generate_continues_after_failure_witness :
  results (ui (generate_to_completion [failing; answering] two_selected))
  = [cat_result]
  /\ toasts (ui (generate_to_completion [failing; answering] two_selected))
     = [failed_to_process].
Proof.
  pose proof (generate_continues_after_failure two_selected [failing; answering] 0
                {| file := cat_file; preview := createObjectURL 0 |} failing
                (Error (str "Failed to generate description and keywords"))
                eq_refl eq_refl eq_refl eq_refl)
    as (_ & _ & _ & Hres & _ & Htoasts & _).
  split; [exact Hres | exact Htoasts].
Defined.

End GenerationProperties.

(** ** Alignment of results and images *)

Section AlignmentProperties.
Import Client Notions Samples.

Lemma fold_left_invariant {S E} (P : S -> Prop) (f : S -> E -> S) (es : list E) (s : S) :
  (forall s e, P s -> P (f s e)) -> P s -> P (fold_left f es s).
Proof.
  intros Hstep. revert s. induction es as [|e es IH]; intros s Hs; cbn; auto.
Qed.

(** Aligned lists render: every row finds its image. *)
Lemma rows_aligned {R} (imgs : list ImageData) (rs : list R) (index : nat) :
  (index + length rs <= length imgs)%nat ->
  exists table, rows imgs index rs = Normal table.
Proof.
  revert index. induction rs as [|r rs IH]; intros index Hle; cbn [rows].
  - eauto.
  - cbn [length] in Hle.
    destruct (lookup_lt_is_Some_2 imgs index ltac:(lia)) as [image ->].
    destruct (IH (S index) ltac:(lia)) as [below ->]. cbn. eauto.
Qed.

Lemma aligned_renders {R} (s : state R) :
  aligned s -> exists table, render_results s = Normal table.
Proof. intros Hs. apply rows_aligned. exact Hs. Qed.

Lemma length_previews (n : nat) (fs : list File) : length (previews n fs) = length fs.
Proof. revert n. induction fs as [|f fs IH]; intros n; cbn; [reflexivity | f_equal; apply IH]. Qed.

Lemma removeImage_aligned {R} (s : state R) (index : nat) :
  aligned s -> aligned (removeImage index s).
Proof.
  unfold aligned. rewrite removeImage_images, removeImage_results.
  rewrite !delete_take_drop, !length_app, !length_take, !length_drop. lia.
Qed.

Lemma handleImageUpload_aligned {R} (s : state R) (chosen : list File) :
  aligned s -> aligned (handleImageUpload chosen s).
Proof.
  unfold aligned, handleImageUpload.
  destruct (MAX_IMAGES <? length chosen)%nat; cbn; lia.
Qed.

Lemma clearAll_aligned {R} (s : state R) : aligned (clearAll s).
Proof.
  unfold aligned. destruct (clearAll_resets s) as (-> & -> & _). reflexivity.
Qed.

Lemma change_aligned {R} (onChange : list File -> state R -> state R)
    (chosen : list File) (s : state R) :
  (forall s, aligned s -> aligned (onChange chosen s)) ->
  aligned s -> aligned (change onChange chosen s).
Proof.
  intros Hon Hs. unfold change. destruct (fileInput s); [|exact Hs].
  apply Hon. exact Hs.
Qed.

(** In [Index.jsx] every reachable state is aligned. *)
Lemma Index_step_aligned (s : state Index.PlaceholderResult) (e : Index.event) :
  aligned s -> aligned (Index.step s e).
Proof.
  intros Hs. destruct e as [chosen|index| |]; cbn [Index.step].
  - apply change_aligned; [|exact Hs]. clear s Hs. intros s Hs.
    unfold aligned, Index.handleImageUpload in *.
    destruct (MAX_IMAGES <? _)%nat; cbn; [exact Hs|].
    rewrite length_app. lia.
  - apply removeImage_aligned, Hs.
  - destruct (bool_decide _ || _); [exact Hs|].
    unfold aligned, Index.generateDescriptionAndKeywords. cbn.
    rewrite length_imap. reflexivity.
  - unfold aligned. cbn. lia.
Qed.

(** X21. In [Index.jsx], after any sequence of selections, removals,
    generations and clearings, there are no more results than images and
    the result table renders. *)
Lemma Index_run_aligned (es : list Index.event) :
  aligned (Index.run mounted es)
  /\ exists table, render_results (Index.run mounted es) = Normal table.
Proof.
  assert (aligned (Index.run mounted es)) as Hal.
  { unfold Index.run. apply (fold_left_invariant aligned); [apply Index_step_aligned|].
    unfold aligned. cbn. lia. }
  split; [exact Hal | apply aligned_renders, Hal].
Qed.

(** So is every reachable state of the [Index] stored after [Home]. *)
Lemma IndexRef_step_aligned (s : state Result) (e : IndexRef.event) :
  aligned s -> aligned (IndexRef.step s e).
Proof.
  intros Hs. destruct e as [chosen|index|random|]; cbn [IndexRef.step].
  - apply change_aligned; [|exact Hs]. intros s'. apply handleImageUpload_aligned.
  - apply removeImage_aligned, Hs.
  - destruct (bool_decide _ || _); [exact Hs|].
    unfold aligned, IndexRef.generateDescriptionAndKeywords. cbn.
    rewrite length_imap. reflexivity.
  - apply clearAll_aligned.
Qed.

(** X22. In the [Index] stored after [Home], after any sequence of
    selections, removals, generations and clearings, there are no more
    results than images and the result table renders. *)
Lemma IndexRef_run_aligned (es : list IndexRef.event) :
  aligned (IndexRef.run mounted es)
  /\ exists table, render_results (IndexRef.run mounted es) = Normal table.
Proof.
  assert (aligned (IndexRef.run mounted es)) as Hal.
  { unfold IndexRef.run. apply (fold_left_invariant aligned); [apply IndexRef_step_aligned|].
    unfold aligned. cbn. lia. }
  split; [exact Hal | apply aligned_renders, Hal].
Qed.

Lemma settle_idle (a : Home.app) (ws : list Home.world) :
  Home.running a = None -> Home.run a (map Home.Settled ws) = a.
Proof.
  intros Hidle. induction ws as [|w ws IH]; cbn; [reflexivity|].
  unfold Home.settle. rewrite Hidle. exact IH.
Qed.

Lemma length_pushed (outs : list (completion Result)) :
  (length (Home.pushed outs) <= length outs)%nat.
Proof.
  unfold Home.pushed. induction outs as [|[r|e] outs IH]; simpl.
  - lia.
  - apply le_n_S, IH.
  - apply Nat.le_le_succ_r, IH.
Qed.

(** In [Home], when every operation ends before the next one begins, no
    call is left in flight and the lists are aligned. *)
Lemma Home_perform_aligned (a : Home.app) (op : operation) :
  Home.running a = None /\ aligned (Home.ui a) ->
  Home.running (perform a op) = None /\ aligned (Home.ui (perform a op)).
Proof.
  intros [Hidle Hal]. destruct a as [s running]. cbn in Hidle, Hal. subst running.
  destruct op as [chosen|index|answers|]; unfold perform; cbn [events_of Home.ui].
  - cbn. split; [reflexivity|].
    apply change_aligned; [|exact Hal]. intros s'. apply handleImageUpload_aligned.
  - cbn. split; [reflexivity|]. apply removeImage_aligned, Hal.
  - cbn [Home.run fold_left Home.step Home.ui].
    destruct (bool_decide _ || _).
    + fold (Home.run (Home.App s None)
              (map (fun index => Home.Settled (answers index)) (seq 0 (length (images s))))).
      rewrite <- (map_map answers Home.Settled).
      rewrite settle_idle by reflexivity. split; [reflexivity | exact Hal].
    + rewrite <- (map_map answers Home.Settled).
      fold (Home.run (Home.generateDescriptionAndKeywords (Home.App s None))
              (map Home.Settled (map answers (seq 0 (length (images s)))))).
      fold (Home.generate_to_completion (map answers (seq 0 (length (images s))))
              (Home.App s None)).
      rewrite generate_to_completion_eq by (cbn; rewrite length_map, length_seq; reflexivity).
      cbn [Home.running Home.ui]. split; [reflexivity|].
      unfold aligned. cbn [results images setIsLoading setResults].
      destruct (report_fields
                  (Home.thrown (Home.outcomes (images s) (map answers (seq 0 (length (images s))))))
                  (setIsLoading true s)) as (-> & _).
      cbn [images setIsLoading].
      etransitivity; [apply length_pushed|].
      unfold Home.outcomes. rewrite length_zip_with, length_map, length_seq. lia.
  - cbn. split; [reflexivity|]. apply clearAll_aligned.
Qed.

(** X23. In [Home], after any sequence of selections, removals,
    generations and clearings in which every generation has ended before
    the next operation begins, there are no more results than images and
    the result table renders. *)
Lemma Home_sequential_aligned (ops : list operation) :
  aligned (Home.ui (perform_all Home.initial ops))
  /\ exists table, render_results (Home.ui (perform_all Home.initial ops)) = Normal table.
Proof.
  assert (Home.running (perform_all Home.initial ops) = None
          /\ aligned (Home.ui (perform_all Home.initial ops))) as [_ Hal].
  { unfold perform_all.
    apply (fold_left_invariant
             (fun a => Home.running a = None /\ aligned (Home.ui a))).
    - apply Home_perform_aligned.
    - split; [reflexivity|]. unfold aligned. cbn. lia. }
  split; [exact Hal | apply aligned_renders, Hal].
Qed.

(** C10 in [Home].  The controls other than Generate stay enabled while a
    generation awaits.  One image is selected, the generation is started,
    Clear All is pressed while the request is pending, and the request
    then succeeds: the call publishes the result of an image that is no
    longer there, and the result table throws on [images[0].preview]. *)
Theorem Home_results_outlive_images :
  let a := Home.run Home.initial cleared_while_pending in
  images (Home.ui a) = []
  /\ results (Home.ui a) = [cat_result]
  /\ ~ aligned (Home.ui a)
  /\ render_results (Home.ui a) = Throw undefined_receiver.
Proof.
  vm_compute. repeat split. intros H. inversion H.
Qed.

End AlignmentProperties.

(** ** More on the patterns of [parseResponse] *)

Section CaptureProperties.
Import Client Home Notions Samples.

(** A repetition reads a run of its class, at least [min] long, and then
    succeeds through its continuation. *)
Lemma repeat_matcher_run cls greedy min input caps c z :
  repeat_matcher cls greedy min input caps c = Some z ->
  exists run tl,
    input = run ++ tl
    /\ Forall (fun ch => class_matches cls ch = true) run
    /\ (min <= length run)%nat
    /\ c (MatchState tl caps) = Some z.
Proof.
  revert min. induction input as [|ch tl IH]; intros min H; cbn in H.
  - destruct min; [|discriminate]. exists [], []. auto.
  - assert (forall m,
              (if class_matches cls ch
               then repeat_matcher cls greedy m tl caps c else None) = Some z ->
              exists run tl',
                ch :: tl = run ++ tl'
                /\ Forall (fun ch => class_matches cls ch = true) run
                /\ (S m <= length run)%nat
                /\ c (MatchState tl' caps) = Some z) as Hagain.
    { intros m Hm. destruct (class_matches cls ch) eqn:Hch; [|discriminate].
      apply IH in Hm as (run & tl' & -> & Hrun & Hlen & Hc).
      exists (ch :: run), tl'. repeat split; auto. cbn. lia. }
    destruct min as [|min].
    + destruct greedy.
      * destruct (if class_matches cls ch
                  then repeat_matcher cls true (pred 0) tl caps c else None) eqn:E.
        -- injection H as <-. apply Hagain in E as (run & tl' & ? & ? & ? & ?).
           exists run, tl'. repeat split; auto. lia.
        -- exists [], (ch :: tl). auto.
      * destruct (c (MatchState (ch :: tl) caps)) eqn:E.
        -- injection H as <-. exists [], (ch :: tl). auto.
        -- apply Hagain in H as (run & tl' & ? & ? & ? & ?).
           exists run, tl'. repeat split; auto. lia.
    + apply Hagain in H. exact H.
Qed.

(** A lazy repetition stops at the first place where its continuation
    succeeds. *)
Lemma repeat_matcher_lazy cls run tl caps c z :
  Forall (fun ch => class_matches cls ch = true) run ->
  (forall before after, run = before ++ after -> after <> [] ->
     c (MatchState (after ++ tl) caps) = None) ->
  c (MatchState tl caps) = Some z ->
  repeat_matcher cls false 0 (run ++ tl) caps c = Some z.
Proof.
  intros Hrun. induction Hrun as [|ch run Hch Hrun IH]; intros Hnot Hc.
  - cbn [Datatypes.app]. destruct tl as [|ch tl]; cbn; rewrite Hc; reflexivity.
  - cbn [Datatypes.app repeat_matcher].
    pose proof (Hnot [] (ch :: run) eq_refl ltac:(discriminate)) as Hhere.
    cbn [Datatypes.app] in Hhere. rewrite Hhere.
    rewrite Hch. cbn [pred]. apply IH; [|exact Hc].
    intros before after -> Hne. apply (Hnot (ch :: before) after eq_refl Hne).
Qed.


Lemma consumed_app (run tl : jsstring) caps :
  consumed (run ++ tl) (MatchState tl caps) = run.
Proof.
  unfold consumed. cbn [rest]. rewrite length_app.
  replace (length run + length tl - length tl)%nat with (length run) by lia.
  apply take_app_length.
Qed.

(** What a match of a line pattern at the start of [s] looks like. *)
Lemma line_pattern_matcher_run marker s caps z :
  matcher (line_pattern marker) (MatchState s caps) Some = Some z ->
  exists line tail,
    s = marker ++ line ++ tail /\ one_line line /\ ends_line tail
    /\ captures z = <[1%nat := Some line]> caps.
Proof.
  cbn [line_pattern matcher rest captures].
  destruct (strip_prefix marker s) as [t|] eqn:E; [|discriminate].
  apply strip_prefix_spec in E. intros H.
  apply repeat_matcher_run in H as (line & tail & -> & Hline & _ & H).
  exists line, tail. split; [exact E|]. split; [|split].
  - eapply Forall_impl; [exact Hline|]. cbn. intros c Hc.
    apply negb_true_iff in Hc. exact Hc.
  - cbn [rest captures] in H. unfold ends_line.
    destruct tail as [|c tail]; [auto|].
    cbn [strip_prefix] in H. destruct (N.eqb_spec 10 c) as [<-|Hne]; [eauto|].
    discriminate H.
  - cbn [rest captures] in H. rewrite consumed_app in H.
    destruct tail as [|c tail]; cbn [strip_prefix] in H.
    + injection H as <-. reflexivity.
    + destruct (10 =? c); cbn in H; [|discriminate].
      injection H as <-. reflexivity.
Qed.

Lemma line_pattern_matcher_line marker line tail caps :
  one_line line -> ends_line tail ->
  exists z, matcher (line_pattern marker) (MatchState (marker ++ line ++ tail) caps) Some
            = Some z
            /\ captures z = <[1%nat := Some line]> caps.
Proof.
  intros Hline Htail. cbn [line_pattern matcher rest captures].
  rewrite (proj2 (strip_prefix_spec marker (marker ++ line ++ tail) (line ++ tail)) eq_refl).
  assert (exists z,
            (match strip_prefix [10] tail with
             | Some tl => Some (MatchState tl (<[1%nat := Some line]> caps))
             | None => None
             end = Some z
             \/ (strip_prefix [10] tail = None /\ tail = []
                 /\ z = MatchState [] (<[1%nat := Some line]> caps)))
            /\ captures z = <[1%nat := Some line]> caps) as (z & Hz & Hcaps).
  { destruct Htail as [->|(t & ->)].
    - eexists. split; [right; repeat split|]. reflexivity.
    - eexists. split; [left; reflexivity|]. reflexivity. }
  exists z. split; [|exact Hcaps].
  apply repeat_matcher_lazy.
  - eapply Forall_impl; [exact Hline|]. cbn. intros c Hc. rewrite Hc. reflexivity.
  - intros before after -> Hne. destruct after as [|c after]; [congruence|].
    apply Forall_app in Hline as [_ Hafter]. apply Forall_cons in Hafter as [Hc _].
    cbn [rest captures Datatypes.app strip_prefix].
    destruct (N.eqb_spec 10 c) as [<-|_]; [discriminate Hc | reflexivity].
  - cbn [rest captures]. rewrite consumed_app.
    destruct Hz as [Hz|(Hnone & -> & ->)]; [rewrite Hz; reflexivity|].
    reflexivity.
Qed.

Lemma line_pattern_matcher_none marker s caps :
  strip_prefix marker s = None ->
  matcher (line_pattern marker) (MatchState s caps) Some = None.
Proof. intros H. cbn [line_pattern matcher rest]. rewrite H. reflexivity. Qed.

(** [string_match] returns the match at the first index where there is one. *)
Lemma string_match_at r before s z :
  (forall i, (i < length before)%nat ->
     matcher r (MatchState (drop i (before ++ s)) (replicate (S (groups r)) None)) Some
     = None) ->
  matcher r (MatchState s (replicate (S (groups r)) None)) Some = Some z ->
  string_match r (before ++ s) = Some (<[0%nat := Some (consumed s z)]> (captures z)).
Proof.
  induction before as [|c before IH]; intros Hnone Hz.
  - cbn [Datatypes.app]. destruct s; cbn [string_match]; rewrite Hz; reflexivity.
  - pose proof (Hnone 0%nat ltac:(cbn; lia)) as Hhere.
    cbn [drop Datatypes.app] in Hhere.
    cbn [Datatypes.app string_match]. rewrite Hhere. apply IH; [|exact Hz].
    intros i Hi. apply (Hnone (S i)). cbn. lia.
Qed.

Lemma string_match_nowhere r s :
  (forall i, (i <= length s)%nat ->
     matcher r (MatchState (drop i s) (replicate (S (groups r)) None)) Some = None) ->
  string_match r s = None.
Proof.
  induction s as [|c s IH]; intros Hnone;
    pose proof (Hnone 0%nat ltac:(cbn; lia)) as Hhere;
    cbn [drop] in Hhere; cbn [string_match]; rewrite Hhere.
  - reflexivity.
  - apply IH. intros i Hi. apply (Hnone (S i)). cbn. lia.
Qed.

Lemma string_match_somewhere r s m :
  string_match r s = Some m ->
  exists before after z,
    s = before ++ after
    /\ matcher r (MatchState after (replicate (S (groups r)) None)) Some = Some z
    /\ m = <[0%nat := Some (consumed after z)]> (captures z).
Proof.
  induction s as [|c s IH]; cbn [string_match].
  - destruct (matcher r _ Some) as [z|] eqn:E; [|discriminate].
    intros [= <-]. exists [], [], z. auto.
  - destruct (matcher r _ Some) as [z|] eqn:E.
    + intros [= <-]. exists [], (c :: s), z. auto.
    + intros H. apply IH in H as (before & after & z & -> & Hz & ->).
      exists (c :: before), after, z. auto.
Qed.

(** The line a line pattern captures: it follows an occurrence of the
    marker, holds no line terminator, and ends at a line feed or at the
    end of the text. *)
Lemma captured_line_sound marker content line :
  captured (line_pattern marker) content = Some line ->
  one_line line
  /\ exists before tail, content = before ++ marker ++ line ++ tail /\ ends_line tail.
Proof.
  unfold captured. destruct (string_match _ content) as [m|] eqn:E; [|discriminate].
  apply string_match_somewhere in E as (before & after & z & -> & Hz & ->).
  apply line_pattern_matcher_run in Hz as (l & tail & -> & Hl & Htail & ->).
  cbn. intros [= <-]. split; [exact Hl|]. eauto.
Qed.

Lemma captured_line_first marker before line tail :
  not_before marker (before ++ marker ++ line ++ tail) (length before) ->
  one_line line -> ends_line tail ->
  captured (line_pattern marker) (before ++ marker ++ line ++ tail) = Some line.
Proof.
  intros Hnot Hline Htail. unfold captured.
  destruct (line_pattern_matcher_line marker line tail
              (replicate (S (groups (line_pattern marker))) None) Hline Htail)
    as (z & Hz & Hcaps).
  rewrite (string_match_at _ before _ z); [|intros i Hi|exact Hz].
  - rewrite Hcaps. reflexivity.
  - apply line_pattern_matcher_none, Hnot, Hi.
Qed.

End CaptureProperties.

Section FieldProperties.
Import Client Home Notions Samples.





(** The conditional [m ? f(m[1]) : dflt] never throws: group 1 takes part
    in every match of the three patterns. *)
Lemma field_value {A} (pattern : regex) (f : jsstring -> A) (dflt : A)
    (content : jsstring) :
  (forall m, string_match pattern content = Some m ->
     exists whole g, m = [Some whole; Some g]) ->
  match string_match pattern content with
  | Some m => let* g := receiver (group m 1) in Normal (f g)
  | None => Normal dflt
  end = Normal (from_option f dflt (captured pattern content)).
Proof.
  intros Hm. unfold captured. destruct (string_match pattern content) as [m|].
  - destruct (Hm m eq_refl) as (whole & g & ->). reflexivity.
  - reflexivity.
Qed.

(** [parseResponse] in terms of what the three patterns capture. *)
Lemma parseResponse_fields (content : jsstring) :
  parseResponse content
  = Normal
      {| description :=
           from_option trim [] (captured (line_pattern (str "Description: ")) content);
         keywords :=
           from_option (fun g => map trim (split 44 g)) []
             (captured (line_pattern (str "Keywords: ")) content);
         tokensUsed := from_option parseInt (Num 0) (captured tokens_pattern content) |}.
Proof.
  unfold parseResponse. cbv zeta.
  match goal with |- context [bind ?X _] =>
    assert (X = Normal (from_option trim []
                          (captured (line_pattern (str "Description: ")) content)))
      as -> by (apply (field_value (line_pattern (str "Description: "))); intros m Hm;
                apply line_pattern_match in Hm as [_ Hm]; exact Hm)
  end.
  cbn [bind].
  match goal with |- context [bind ?X _] =>
    assert (X = Normal (from_option (fun g => map trim (split 44 g)) []
                          (captured (line_pattern (str "Keywords: ")) content)))
      as -> by (apply (field_value (line_pattern (str "Keywords: "))); intros m Hm;
                apply line_pattern_match in Hm as [_ Hm]; exact Hm)
  end.
  cbn [bind].
  match goal with |- context [bind ?X _] =>
    assert (X = Normal (from_option parseInt (Num 0) (captured tokens_pattern content)))
      as -> by (apply (field_value tokens_pattern); intros m Hm;
                apply tokens_pattern_match in Hm as [_ Hm]; exact Hm)
  end.
  reflexivity.
Qed.

(** *** [trim] *)

Lemma trimStart_suffix s : exists dropped, s = dropped ++ trimStart s.
Proof.
  induction s as [|c s [dropped IH]]; cbn [trimStart].
  - exists []. reflexivity.
  - destruct (is_trimmed c).
    + exists (c :: dropped). cbn. f_equal. exact IH.
    + exists []. reflexivity.
Qed.

Lemma trimStart_head s c : head (trimStart s) = Some c -> is_trimmed c = false.
Proof.
  induction s as [|c' s IH]; cbn [trimStart]; [discriminate|].
  destruct (is_trimmed c') eqn:E; [exact IH|].
  cbn. intros [= <-]. exact E.
Qed.

Lemma trimStart_bare s :
  (forall c, head s = Some c -> is_trimmed c = false) -> trimStart s = s.
Proof.
  destruct s as [|c s]; [reflexivity|]. intros H. cbn [trimStart].
  rewrite (H c eq_refl). reflexivity.
Qed.

Lemma trimEnd_prefix s : exists dropped, s = trimEnd s ++ dropped.
Proof.
  unfold trimEnd. destruct (trimStart_suffix (rev s)) as [dropped H].
  exists (rev dropped). rewrite <- rev_app_distr, <- H, rev_involutive. reflexivity.
Qed.

Lemma last_rev_head {A} (l : list A) : last (rev l) = head l.
Proof. destruct l as [|x l]; [reflexivity|]. cbn. apply last_snoc. Qed.

Lemma trimEnd_last s c : last (trimEnd s) = Some c -> is_trimmed c = false.
Proof. unfold trimEnd. rewrite last_rev_head. apply trimStart_head. Qed.

Lemma trim_bare s : bare (trim s).
Proof.
  unfold bare, trim. split; intros c Hc; [|eapply trimEnd_last, Hc].
  destruct (trimEnd_prefix (trimStart s)) as [dropped H].
  apply (trimStart_head s). rewrite H.
  destruct (trimEnd (trimStart s)); [discriminate | exact Hc].
Qed.

Lemma bare_trim s : bare s -> trim s = s.
Proof.
  intros [Hhead Hlast]. unfold trim. rewrite (trimStart_bare s Hhead).
  unfold trimEnd. rewrite trimStart_bare; [apply rev_involutive|].
  intros c Hc. apply Hlast. rewrite <- (rev_involutive s), last_rev_head. exact Hc.
Qed.

Lemma trim_Forall (P : code_unit -> Prop) s : Forall P s -> Forall P (trim s).
Proof.
  intros H. unfold trim.
  destruct (trimStart_suffix s) as [d1 H1].
  destruct (trimEnd_prefix (trimStart s)) as [d2 H2].
  rewrite H1, H2 in H. apply Forall_app in H as [_ H].
  apply Forall_app in H as [H _]. exact H.
Qed.

(** *** [split] *)

Lemma split_pieces (P : code_unit -> Prop) sep s :
  Forall P s ->
  Forall (fun piece => Forall (fun c => P c /\ c <> sep) piece) (split sep s).
Proof.
  intros H. induction H as [|c s Hc Hs IH]; cbn [split].
  - repeat constructor.
  - destruct (N.eqb_spec c sep) as [->|Hne].
    + constructor; [constructor | exact IH].
    + destruct (split sep s) as [|piece pieces].
      * repeat constructor; assumption.
      * apply Forall_cons in IH as [Hpiece Hpieces].
        constructor; [|exact Hpieces]. constructor; [split; assumption | exact Hpiece].
Qed.

Lemma length_split sep s :
  length (split sep s) = S (length (List.filter (fun c => c =? sep) s)).
Proof.
  induction s as [|c s IH]; cbn [split List.filter]; [reflexivity|].
  destruct (c =? sep).
  - cbn [length]. rewrite IH. reflexivity.
  - destruct (split sep s); cbn [length] in *; [discriminate | exact IH].
Qed.

(** *** [parseInt] *)




End FieldProperties.

(** ** The fields [parseResponse] returns *)

Section ParsedFields.
Import Client Home Notions Samples.

(** X1. Whatever the text, the description returned is a single line (no
    line feed, carriage return, line or paragraph separator in it) with no
    white space at either end. *)
Theorem description_is_one_bare_line (content : jsstring) :
  exists r, parseResponse content = Normal r
  /\ one_line (description r) /\ bare (description r).
Proof.
  rewrite parseResponse_fields. eexists. split; [reflexivity|]. cbn [description].
  destruct (captured (line_pattern (str "Description: ")) content) as [line|] eqn:E;
    cbn [from_option].
  - apply captured_line_sound in E as [Hline _].
    split; [apply trim_Forall, Hline | apply trim_bare].
  - split; [constructor | split; discriminate].
Qed.

(** X2. Whatever the text, every keyword returned is free of commas and
    of line terminators and has no white space at either end. *)
Theorem keywords_are_clean (content : jsstring) :
  exists r, parseResponse content = Normal r
  /\ Forall clean_keyword (keywords r).
Proof.
  rewrite parseResponse_fields. eexists. split; [reflexivity|]. cbn [keywords].
  destruct (captured (line_pattern (str "Keywords: ")) content) as [line|] eqn:E;
    cbn [from_option]; [|constructor].
  apply captured_line_sound in E as [Hline _].
  apply (split_pieces _ 44) in Hline.
  apply Forall_fmap. eapply Forall_impl; [exact Hline|].
  intros piece Hpiece. cbn. split; [apply trim_bare|]. split.
  - apply trim_Forall. eapply Forall_impl; [exact Hpiece|]. cbn. tauto.
  - intros Hin. apply (trim_Forall _ _) in Hpiece.
    rewrite Forall_forall in Hpiece. apply list_elem_of_In in Hin.
    apply Hpiece in Hin as [_ Hne]. congruence.
Qed.


(** X4. When the first [Description: ] of the text is followed by a run
    without line terminator that ends at a line feed or at the end of the
    text, the description is that run, trimmed. *)
Theorem description_of_first_line (before line tail : jsstring) :
  not_before (str "Description: ") (before ++ str "Description: " ++ line ++ tail)
    (length before) ->
  one_line line -> ends_line tail ->
  exists r, parseResponse (before ++ str "Description: " ++ line ++ tail) = Normal r
  /\ description r = trim line.
Proof.
  intros Hnot Hline Htail. rewrite parseResponse_fields.
  eexists. split; [reflexivity|]. cbn [description].
  rewrite (captured_line_first _ before line tail Hnot Hline Htail). reflexivity.
Qed.

Lemma description_of_first_line_witness :
  exists r, parseResponse (str "Sure! Description: A cat. " ++ [10] ++ str "Bye") = Normal r
  /\ description r = str "A cat.".
Proof.
  apply (description_of_first_line (str "Sure! ") (str "A cat. ") (10 :: str "Bye")).
  - intros i Hi. do 6 (destruct i as [|i]; [reflexivity|]). cbn in Hi. lia.
  - repeat constructor.
  - right. eexists. reflexivity.
Defined.

(** X5. When the first [Keywords: ] of the text is followed by a run
    without line terminator that ends at a line feed or at the end of the
    text, the keywords are the pieces of that run between its commas, each
    trimmed: one more keyword than the run has commas. *)
Theorem keywords_of_first_line (before line tail : jsstring) :
  not_before (str "Keywords: ") (before ++ str "Keywords: " ++ line ++ tail)
    (length before) ->
  one_line line -> ends_line tail ->
  exists r, parseResponse (before ++ str "Keywords: " ++ line ++ tail) = Normal r
  /\ keywords r = map trim (split 44 line)
  /\ length (keywords r) = S (length (List.filter (fun c => c =? 44) line)).
Proof.
  intros Hnot Hline Htail. rewrite parseResponse_fields.
  eexists. split; [reflexivity|]. cbn [keywords].
  rewrite (captured_line_first _ before line tail Hnot Hline Htail).
  cbn [from_option]. split; [reflexivity|].
  rewrite length_map. apply length_split.
Qed.

Lemma keywords_of_first_line_witness :
  exists r, parseResponse (str "Keywords: cat,,  pet ") = Normal r
  /\ keywords r = [str "cat"; []; str "pet"]
  /\ length (keywords r) = 3%nat.
Proof.
  apply (keywords_of_first_line [] (str "cat,,  pet ") []).
  - intros i Hi. cbn in Hi. lia.
  - repeat constructor.
  - left. reflexivity.
Defined.



(** A run without line terminator that stops at a line terminator or at
    the end of the text is determined by the text. *)
Lemma line_end_unique (line tl l t : jsstring) :
  one_line line -> one_line l ->
  match tl with [] => True | c :: _ => is_line_terminator c = true end ->
  match t with [] => True | c :: _ => is_line_terminator c = true end ->
  line ++ tl = l ++ t -> line = l /\ tl = t.
Proof.
  intros Hline. revert l. induction Hline as [|c line Hc Hline IH];
    intros l Hl Htl Ht Heq; destruct Hl as [|c' l Hc' Hl]; cbn in Heq.
  - auto.
  - subst tl. congruence.
  - subst t. congruence.
  - injection Heq as <- Heq. destruct (IH l Hl Htl Ht Heq) as [<- <-]. auto.
Qed.

Lemma captured_line_carriage_return marker before line tail :
  only_at marker (before ++ marker ++ line ++ 13 :: tail) (length before) ->
  one_line line ->
  captured (line_pattern marker) (before ++ marker ++ line ++ 13 :: tail) = None.
Proof.
  intros Honly Hline. unfold captured.
  rewrite string_match_nowhere; [reflexivity|].
  intros i _. destruct (decide (i = length before)) as [->|Hne];
    [|apply line_pattern_matcher_none, Honly, Hne].
  rewrite drop_app_length.
  destruct (matcher _ _ Some) as [z|] eqn:E; [exfalso | reflexivity].
  apply line_pattern_matcher_run in E as (l & t & Heq & Hl & Ht & _).
  apply app_inv_head in Heq.
  apply line_end_unique in Heq as [_ Heq]; [| assumption | assumption | reflexivity |].
  - subst t. destruct Ht as [Ht|(t & Ht)]; discriminate Ht.
  - destruct Ht as [->|(t' & ->)]; reflexivity.
Qed.

(** X7. Text with CRLF line ends: when [Description: ] (or [Keywords: ])
    starts at one index of the text only, and the run after it stops at a
    carriage return, the field is lost: the description is empty (the
    keyword list is empty). *)
Theorem carriage_return_loses_field (before line tail : jsstring) :
  one_line line ->
  (only_at (str "Description: ")
     (before ++ str "Description: " ++ line ++ 13 :: tail) (length before) ->
   exists r, parseResponse (before ++ str "Description: " ++ line ++ 13 :: tail)
             = Normal r
   /\ description r = [])
  /\ (only_at (str "Keywords: ")
        (before ++ str "Keywords: " ++ line ++ 13 :: tail) (length before) ->
      exists r, parseResponse (before ++ str "Keywords: " ++ line ++ 13 :: tail)
                = Normal r
      /\ keywords r = []).
Proof.
  intros Hline. split; intros Honly; rewrite parseResponse_fields;
    (eexists; split; [reflexivity|]).
  - cbn [description].
    match goal with |- context [captured ?p ?c] =>
      assert (captured p c = None) as ->
        by (apply captured_line_carriage_return; assumption)
    end.
    reflexivity.
  - cbn [keywords].
    match goal with |- context [captured ?p ?c] =>
      assert (captured p c = None) as ->
        by (apply captured_line_carriage_return; assumption)
    end.
    reflexivity.
Qed.

Lemma carriage_return_loses_field_witness :
  exists r, parseResponse (str "Description: A cat." ++ [13; 10] ++ str "Bye") = Normal r
  /\ description r = [].
Proof.
  apply (proj1 (carriage_return_loses_field [] (str "A cat.") (10 :: str "Bye")
                  ltac:(repeat constructor))).
  intros i Hi. destruct i as [|i]; [exfalso; apply Hi; reflexivity|].
  do 30 (destruct i as [|i]; [reflexivity|]). reflexivity.
Defined.

Lemma trim_space s : trim (32 :: s) = trim s.
Proof. reflexivity. Qed.

Lemma split_no_separator sep s : ~ In sep s -> split sep s = [s].
Proof.
  induction s as [|c s IH]; intros Hnot; cbn [split]; [reflexivity|].
  destruct (N.eqb_spec c sep) as [->|Hne]; [exfalso; apply Hnot; left; reflexivity|].
  rewrite IH; [reflexivity|]. intros Hin. apply Hnot. right. exact Hin.
Qed.

Lemma split_at_separator sep a b :
  ~ In sep a -> split sep (a ++ sep :: b) = a :: split sep b.
Proof.
  induction a as [|c a IH]; intros Hnot; cbn [Datatypes.app split].
  - rewrite N.eqb_refl. reflexivity.
  - destruct (N.eqb_spec c sep) as [->|Hne]; [exfalso; apply Hnot; left; reflexivity|].
    rewrite IH; [reflexivity|]. intros Hin. apply Hnot. right. exact Hin.
Qed.

Lemma split_copied_keywords (ks : list jsstring) :
  ks <> [] -> Forall clean_keyword ks ->
  map trim (split 44 (copied_keywords ks)) = ks.
Proof.
  intros Hne Hks. induction Hks as [|k ks (Hbare & _ & Hcomma) Hks IH]; [congruence|].
  destruct ks as [|k' ks].
  - cbn [copied_keywords join].
    match goal with |- context [split 44 ?x] =>
      assert (split 44 x = [k]) as -> by (apply split_no_separator; exact Hcomma)
    end.
    cbn [map]. rewrite bare_trim by exact Hbare. reflexivity.
  - unfold copied_keywords in *. cbn [join].
    match goal with |- context [split 44 ?x] =>
      assert (split 44 x = k :: split 44 (32 :: join (str ", ") (k' :: ks))) as ->
        by (apply (split_at_separator 44 k); exact Hcomma)
    end.
    cbn [map]. rewrite bare_trim by exact Hbare. f_equal.
    specialize (IH ltac:(discriminate)).
    cbn [split]. change (32 =? 44) with false. cbn iota.
    destruct (split 44 (join (str ", ") (k' :: ks))) as [|piece pieces] eqn:E.
    + discriminate IH.
    + cbn [map] in *. rewrite trim_space. exact IH.
Qed.

(** X8. The text the copy button of a keywords cell puts on the clipboard
    ([keywords.join(', ')]) parses back, after [Keywords: ], to the same
    keywords, for every non-empty list of keywords as [parseResponse]
    leaves them. *)
Theorem copied_keywords_parse_back (ks : list jsstring) :
  ks <> [] -> Forall clean_keyword ks ->
  exists r, parseResponse (str "Keywords: " ++ copied_keywords ks) = Normal r
  /\ keywords r = ks.
Proof.
  intros Hne Hks.
  assert (one_line (copied_keywords ks)) as Hline.
  { clear Hne. unfold copied_keywords.
    induction Hks as [|k ks (_ & Hk & _) Hks IH]; [constructor|].
    destruct ks as [|k' ks]; [exact Hk|].
    cbn [join]. apply Forall_app. split; [exact Hk|].
    apply Forall_app. split; [repeat constructor | exact IH]. }
  rewrite parseResponse_fields. eexists. split; [reflexivity|]. cbn [keywords].
  match goal with |- context [captured ?p ?c] =>
    assert (captured p c = Some (copied_keywords ks)) as ->
  end.
  { rewrite <- (app_nil_r (copied_keywords ks)) at 1.
    apply (captured_line_first (str "Keywords: ") [] (copied_keywords ks) []).
    - intros i Hi. cbn in Hi. lia.
    - exact Hline.
    - left. reflexivity. }
  cbn [from_option]. apply split_copied_keywords; assumption.
Qed.

Lemma copied_keywords_parse_back_witness :
  exists r, parseResponse (str "Keywords: cat, pet, animal") = Normal r
  /\ keywords r = [str "cat"; str "pet"; str "animal"].
Proof.
  apply (copied_keywords_parse_back [str "cat"; str "pet"; str "animal"]).
  - discriminate.
  - assert (forall k, k = str "cat" \/ k = str "pet" \/ k = str "animal" ->
                 clean_keyword k) as Hclean.
    { intros k [->|[->| ->]];
        (split; [split; intros c; cbn; intros [= <-]; reflexivity|]);
        (split; [repeat constructor | cbn; intuition discriminate]). }
    constructor; [apply Hclean; auto|].
    constructor; [apply Hclean; auto|].
    constructor; [apply Hclean; auto | constructor].
Defined.

End ParsedFields.

(** ** The proxy endpoint, all requests *)

Section ProxyCoverage.
Import Proxy Notions Samples.

(** X9. A POST whose call of the completion service succeeds: the service
    was called once, with the request body as it came, and its answer goes
    back as it is with status 200; nothing is logged. *)
Theorem handler_forwards_success
    (create : option json -> completion json) (req : NextApiRequest) (response : json) :
  method req = Some (str "POST") ->
  create (body req) = Normal response ->
  handler create req = [ServiceCall (body req); Respond 200 response]
  /\ response_of (handler create req) = Some (200, response)
  /\ logged (handler create req) = [].
Proof.
  intros Hpost Hok. unfold handler.
  rewrite bool_decide_eq_true_2 by exact Hpost. cbn [negb].
  rewrite Hok. repeat split.
Qed.

Lemma handler_forwards_success_witness :
  response_of (handler (fun payload => Normal (JObject [(str "echo", JNull)])) a_post)
  = Some (200, JObject [(str "echo", JNull)]).
Proof.
  eapply proj1, proj2.
  apply (handler_forwards_success (fun payload => Normal (JObject [(str "echo", JNull)]))
           a_post); reflexivity.
Defined.

(** X10. Every request gets exactly one answer, with status 200, 405 or
    500, and the completion service is called at most once, with the
    request body. *)
Theorem handler_answers_once
    (create : option json -> completion json) (req : NextApiRequest) :
  exists status answer,
    responses (handler create req) = [(status, answer)]
    /\ (status = 200 \/ status = 405 \/ status = 500)
    /\ (service_calls (handler create req) = []
        \/ service_calls (handler create req) = [body req]).
Proof.
  unfold handler.
  destruct (negb (bool_decide (method req = Some (str "POST")))).
  - eexists _, _. split; [reflexivity|]. auto.
  - destruct (create (body req)); eexists _, _; (split; [reflexivity|]); auto.
Qed.

End ProxyCoverage.

(** ** The result table and the removal of an entry *)

Section TableProperties.
Import Client Notions Samples.

Lemma rows_zip {R} (imgs : list ImageData) (rs : list R) (index : nat) :
  (index + length rs <= length imgs)%nat ->
  rows imgs index rs = Normal (zip (map preview (drop index imgs)) rs).
Proof.
  revert index. induction rs as [|r rs IH]; intros index Hle; cbn [rows].
  - destruct (map preview (drop index imgs)); reflexivity.
  - cbn [length] in Hle.
    destruct (lookup_lt_is_Some_2 imgs index ltac:(lia)) as [image Himage].
    rewrite Himage, (IH (S index)) by lia. cbn [bind].
    rewrite (drop_S imgs image index Himage). reflexivity.
Qed.

Lemma rows_throw {R} (imgs : list ImageData) (rs : list R) (index : nat) :
  (index <= length imgs < index + length rs)%nat ->
  rows imgs index rs = Throw undefined_receiver.
Proof.
  revert index. induction rs as [|r rs IH]; intros index Hlt; cbn [rows].
  - cbn in Hlt. lia.
  - cbn [length] in Hlt. destruct (imgs !! index) as [image|] eqn:Himage; [|reflexivity].
    apply lookup_lt_Some in Himage.
    rewrite (IH (S index)) by lia. reflexivity.
Qed.

(** X11. The result table renders exactly when there are no more results
    than images: row [i] then shows the preview of image [i] beside result
    [i]; with more results than images it throws. *)
Theorem render_results_cases {R} (s : state R) :
  ((length (results s) <= length (images s))%nat ->
   render_results s = Normal (zip (map preview (images s)) (results s)))
  /\ ((length (images s) < length (results s))%nat ->
      render_results s = Throw undefined_receiver).
Proof.
  split; intros H.
  - unfold render_results. rewrite rows_zip by (cbn; lia). reflexivity.
  - apply rows_throw. cbn. lia.
Qed.

Lemma render_results_cases_witness :
  render_results (Home.ui two_selected) = Normal []
  /\ render_results (Home.ui (Home.run Home.initial cleared_while_pending))
     = Throw undefined_receiver.
Proof.
  split.
  - apply (proj1 (render_results_cases (Home.ui two_selected))). vm_compute. lia.
  - apply (proj2 (render_results_cases
                    (Home.ui (Home.run Home.initial cleared_while_pending)))).
    vm_compute. lia.
Defined.

Lemma zip_delete {A B} (l : list A) (k : list B) (i : nat) :
  zip (delete i l) (delete i k) = delete i (zip l k).
Proof.
  revert k i. induction l as [|x l IH]; intros k i.
  - destruct i; reflexivity.
  - destruct k as [|y k].
    + destruct i; cbn; [|destruct (delete i l)]; try reflexivity.
      destruct l; reflexivity.
    + destruct i as [|i]; cbn; [reflexivity|]. f_equal. apply IH.
Qed.

(** X12. [removeImage] keeps every remaining result beside its own image:
    the pairs of an image and the result at the same index are the pairs
    there were, without the pair at the removed index. *)
Theorem removeImage_keeps_pairs {R} (s : state R) (index : nat) :
  zip (images (removeImage index s)) (results (removeImage index s))
  = delete index (zip (images s) (results s)).
Proof.
  rewrite removeImage_images, removeImage_results. apply zip_delete.
Qed.

(** X13. The word count under a description, [description.split(' ').length],
    is the number of spaces plus one: 1 for the empty description. *)
Theorem words_is_spaces_plus_one (d : jsstring) :
  words d = S (length (List.filter (fun c => c =? 32) d)).
Proof. apply length_split. Qed.

End TableProperties.

(** ** Generation in [Home], all outcomes *)

Section GenerationCoverage.
Import Client Home Notions Samples.

Lemma pushed_all_normal (outs : list (completion Result)) :
  (forall i o, outs !! i = Some o -> exists r, o = Normal r) ->
  map Normal (pushed outs) = outs.
Proof.
  induction outs as [|o outs IH]; intros Hall; [reflexivity|].
  destruct (Hall 0%nat o eq_refl) as [r ->].
  unfold pushed in *. cbn. f_equal. apply IH.
  intros i o Ho. apply (Hall (S i) o Ho).
Qed.

Lemma pushed_lookup_normal (outs : list (completion Result)) (i : nat) (r : Result) :
  (forall i o, outs !! i = Some o -> exists r, o = Normal r) ->
  outs !! i = Some (Normal r) -> pushed outs !! i = Some r.
Proof.
  intros Hall Hi. rewrite <- (pushed_all_normal outs Hall) in Hi.
  change (map Normal (pushed outs)) with (Normal <$> pushed outs) in Hi.
  rewrite list_lookup_fmap in Hi.
  destruct (pushed outs !! i) as [r'|]; [|discriminate].
  cbn in Hi. injection Hi as ->. reflexivity.
Qed.

Lemma length_outcomes (imgs : list ImageData) (ws : list world) :
  length ws = length imgs -> length (outcomes imgs ws) = length imgs.
Proof. intros H. unfold outcomes. rewrite length_zip_with. lia. Qed.

Lemma outcomes_lookup_inv (imgs : list ImageData) (ws : list world) (i : nat)
    (o : completion Result) :
  outcomes imgs ws !! i = Some o ->
  exists image w, imgs !! i = Some image /\ ws !! i = Some w /\ o = process_image w image.
Proof.
  unfold outcomes. rewrite lookup_zip_with.
  destruct (imgs !! i) as [image|]; [|discriminate]. cbn.
  destruct (ws !! i) as [w|]; [|discriminate]. cbn.
  intros [= <-]. eauto.
Qed.

(** X14. When the pipeline of every image succeeds, a generation run to
    its end publishes exactly one result per image, the result of image
    [i] at index [i], shows no notification and ends with [isLoading]
    false. *)
Theorem generate_one_result_per_image (a : app) (ws : list world) :
  length ws = length (images (ui a)) ->
  (forall i image w, images (ui a) !! i = Some image -> ws !! i = Some w ->
     exists r, process_image w image = Normal r) ->
  let a' := generate_to_completion ws a in
  running a' = None
  /\ isLoading (ui a') = false
  /\ length (results (ui a')) = length (images (ui a'))
  /\ toasts (ui a') = toasts (ui a)
  /\ (forall i image w r,
        images (ui a) !! i = Some image -> ws !! i = Some w ->
        process_image w image = Normal r -> results (ui a') !! i = Some r).
Proof.
  intros Hlen Hall a'. subst a'.
  rewrite generate_to_completion_eq by exact Hlen.
  set (outs := outcomes (images (ui a)) ws).
  assert (forall i o, outs !! i = Some o -> exists r, o = Normal r) as Hnormal.
  { intros i o Ho. apply outcomes_lookup_inv in Ho as (image & w & Hi & Hw & ->).
    apply (Hall i image w Hi Hw). }
  assert (thrown outs = []) as Hnone.
  { rewrite <- (pushed_all_normal outs Hnormal). unfold thrown.
    induction (pushed outs); [reflexivity | exact IHl]. }
  destruct (report_fields (thrown outs) (setIsLoading true (ui a)))
    as (Himgs & _ & Htoasts & _).
  cbn [running ui isLoading images results toasts setIsLoading setResults].
  split; [reflexivity|]. split; [reflexivity|]. split; [|split].
  - rewrite Himgs. cbn [images setIsLoading].
    rewrite <- (length_outcomes (images (ui a)) ws Hlen). fold outs.
    rewrite <- (pushed_all_normal outs Hnormal) at 2. rewrite length_map. reflexivity.
  - rewrite Htoasts, Hnone. cbn. apply app_nil_r.
  - intros i image w r Hi Hw Hr. apply pushed_lookup_normal; [exact Hnormal|].
    subst outs. rewrite (outcomes_lookup _ _ i image w Hi Hw), Hr. reflexivity.
Qed.

Lemma generate_one_result_per_image_witness :
  length (results (ui (generate_to_completion [answering; answering] two_selected)))
  = 2%nat
  /\ results (ui (generate_to_completion [answering; answering] two_selected)) !! 1%nat
     = Some cat_result.
Proof.
  assert (forall i image w,
            images (ui two_selected) !! i = Some image ->
            [answering; answering] !! i = Some w ->
            exists r, process_image w image = Normal r) as Hall.
  { intros i image w Hi Hw.
    destruct i as [|[|i]]; [| |discriminate Hw];
      injection Hi as <-; injection Hw as <-; eexists; vm_compute; reflexivity. }
  destruct (generate_one_result_per_image two_selected [answering; answering]
              eq_refl Hall) as (_ & _ & Hlen & _ & Hat).
  split; [exact Hlen|].
  apply (Hat 1%nat {| file := dog_file; preview := createObjectURL 1 |} answering);
    [reflexivity | reflexivity | vm_compute; reflexivity].
Defined.

(** X15. When the pipeline of the image at [k] throws and every other one
    succeeds, the results of the later images move up by one: the result
    table has one row less than there are images, and from row [k] on, row
    [j] shows the preview of image [j] beside the result of image [j + 1]. *)
Theorem failure_shifts_later_rows
    (a : app) (ws : list world) (k : nat)
    (image : ImageData) (w : world) (error : js_error) :
  length ws = length (images (ui a)) ->
  images (ui a) !! k = Some image -> ws !! k = Some w ->
  process_image w image = Throw error ->
  (forall i image' w', i <> k ->
     images (ui a) !! i = Some image' -> ws !! i = Some w' ->
     exists r, process_image w' image' = Normal r) ->
  let a' := generate_to_completion ws a in
  exists table,
    render_results (ui a') = Normal table
    /\ S (length table) = length (images (ui a))
    /\ (forall j shown next w' r,
          (k <= j)%nat ->
          images (ui a) !! j = Some shown ->
          images (ui a) !! S j = Some next -> ws !! S j = Some w' ->
          process_image w' next = Normal r ->
          table !! j = Some (preview shown, r)).
Proof.
  intros Hlen Hi Hw Hthrow Hothers a'. subst a'.
  rewrite generate_to_completion_eq by exact Hlen.
  set (imgs := images (ui a)) in *.
  destruct (report_fields (thrown (outcomes imgs ws)) (setIsLoading true (ui a)))
    as (Himgs & _).
  cbn [images setIsLoading] in Himgs. fold imgs in Himgs.
  set (front := outcomes (take k imgs) (take k ws)).
  set (back := outcomes (drop (S k) imgs) (drop (S k) ws)).
  assert (outcomes imgs ws = front ++ Throw error :: back) as Hsplit.
  { rewrite <- Hthrow. apply outcomes_split; assumption. }
  assert (k < length imgs)%nat as Hk by (eapply lookup_lt_Some, Hi).
  assert (forall i o, front !! i = Some o -> exists r, o = Normal r) as Hfront.
  { intros i o Ho. apply outcomes_lookup_inv in Ho as (image' & w' & Hi' & Hw' & ->).
    apply lookup_take_Some in Hi' as [Hi' Hlt]. apply lookup_take_Some in Hw' as [Hw' _].
    apply (Hothers i image' w'); [lia | assumption | assumption]. }
  assert (forall i o, back !! i = Some o -> exists r, o = Normal r) as Hback.
  { intros i o Ho. apply outcomes_lookup_inv in Ho as (image' & w' & Hi' & Hw' & ->).
    rewrite lookup_drop in Hi'. rewrite lookup_drop in Hw'.
    apply (Hothers (S k + i)%nat image' w'); [lia | assumption | assumption]. }
  assert (length (pushed front) = k) as Hlfront.
  { rewrite <- (length_map Normal), (pushed_all_normal front Hfront).
    unfold front. rewrite length_outcomes; rewrite !length_take; lia. }
  assert (length (pushed back) = (length imgs - S k)%nat) as Hlback.
  { rewrite <- (length_map Normal), (pushed_all_normal back Hback).
    unfold back. rewrite length_outcomes; rewrite !length_drop; lia. }
  assert (pushed (outcomes imgs ws) = pushed front ++ pushed back) as Hpushed.
  { rewrite Hsplit. unfold pushed. rewrite omap_app. reflexivity. }
  eexists. split; [|split].
  - apply (rows_zip _ _ 0%nat).
    cbn [ui images results setIsLoading setResults]. rewrite Himgs, Hpushed, length_app. lia.
  - cbn [ui images results setIsLoading setResults drop].
    rewrite Himgs, Hpushed, drop_0. rewrite length_zip, length_map, length_app. lia.
  - intros j shown next w' r Hkj Hshown Hnext Hw' Hr.
    cbn [ui images results setIsLoading setResults drop].
    rewrite Himgs, Hpushed, drop_0. apply lookup_zip_Some. split.
    + change (map preview imgs) with (preview <$> imgs).
      rewrite list_lookup_fmap, Hshown. reflexivity.
    + rewrite lookup_app_r by lia. rewrite Hlfront.
      apply pushed_lookup_normal; [exact Hback|].
      unfold back. rewrite <- Hr. apply outcomes_lookup.
      * rewrite lookup_drop. replace (S k + (j - k))%nat with (S j) by lia. exact Hnext.
      * rewrite lookup_drop. replace (S k + (j - k))%nat with (S j) by lia. exact Hw'.
Qed.

Lemma failure_shifts_later_rows_witness :
  exists table,
    render_results (ui (generate_to_completion [failing; answering] two_selected))
    = Normal table
    /\ table !! 0%nat = Some (createObjectURL 0, cat_result).
Proof.
  destruct (failure_shifts_later_rows two_selected [failing; answering] 0
              {| file := cat_file; preview := createObjectURL 0 |} failing
              (Error (str "Failed to generate description and keywords"))
              eq_refl eq_refl eq_refl eq_refl)
    as (table & Hrender & _ & Hrows).
  - intros i image' w' Hne Hi Hw.
    destruct i as [|[|i]]; [congruence | | discriminate Hw].
    injection Hi as <-. injection Hw as <-. eexists. vm_compute. reflexivity.
  - exists table. split; [exact Hrender|].
    apply (Hrows 0%nat {| file := cat_file; preview := createObjectURL 0 |}
             {| file := dog_file; preview := createObjectURL 1 |} answering cat_result);
      [lia | reflexivity | reflexivity | reflexivity | vm_compute; reflexivity].
Defined.

End GenerationCoverage.

(** ** What every run of the pages keeps true *)

Section RunInvariants.
Import Client Notions Samples.

Lemma handleImageUpload_isLoading {R} (chosen : list File) (s : state R) :
  isLoading (handleImageUpload chosen s) = isLoading s.
Proof. unfold handleImageUpload. destruct (MAX_IMAGES <? length chosen)%nat; reflexivity. Qed.

Lemma change_isLoading {R} (chosen : list File) (s : state R) :
  isLoading (change handleImageUpload chosen s) = isLoading s.
Proof.
  unfold change. destruct (fileInput s); [|reflexivity].
  rewrite handleImageUpload_isLoading. reflexivity.
Qed.

Lemma clearAll_isLoading {R} (s : state R) : isLoading (clearAll s) = isLoading s.
Proof. unfold clearAll. cbn. destruct (fileInput s); reflexivity. Qed.

Lemma continue_loop_tracks (todo : list ImageData) (acc : list Result) (s : state Result) :
  isLoading s = true -> loading_tracks_call (Home.continue_loop todo acc s).
Proof.
  intros Hs. unfold loading_tracks_call. destruct todo; cbn; [reflexivity|].
  split; [exact Hs | discriminate].
Qed.

Lemma Home_step_tracks (a : Home.app) (e : Home.event) :
  loading_tracks_call a -> loading_tracks_call (Home.step a e).
Proof.
  intros Ha. destruct a as [s call].
  destruct e as [chosen|index| | |w]; cbn [Home.step Home.on_ui Home.ui Home.running].
  - unfold loading_tracks_call, Home.on_ui in *. cbn [Home.ui Home.running] in *.
    rewrite change_isLoading. exact Ha.
  - exact Ha.
  - destruct (bool_decide (images s = []) || isLoading s); [exact Ha|].
    apply continue_loop_tracks. reflexivity.
  - unfold loading_tracks_call, Home.on_ui in *. cbn [Home.ui Home.running] in *.
    rewrite clearAll_isLoading. exact Ha.
  - unfold Home.settle. cbn [Home.running Home.ui].
    destruct call as [t|]; [|exact Ha]. destruct Ha as [Hloading Htodo].
    cbn [Home.ui] in Hloading.
    destruct (Home.remaining t) as [|image todo]; [congruence|].
    destruct (Home.process_image w image);
      apply continue_loop_tracks; exact Hloading.
Qed.

(** X16. In [Home], whatever the user does and whenever the awaits settle,
    [isLoading] is true exactly while a call of
    [generateDescriptionAndKeywords] is in flight, and a click on Generate
    during that time changes nothing: there is never a second call. *)
Theorem Home_one_call_at_a_time (es : list Home.event) :
  let a := Home.run Home.initial es in
  (isLoading (Home.ui a) = true <-> Home.running a <> None)
  /\ (Home.running a <> None -> Home.step a Home.ClickGenerate = a).
Proof.
  intros a.
  assert (loading_tracks_call a) as Ha.
  { subst a. unfold Home.run.
    apply (fold_left_invariant loading_tracks_call); [apply Home_step_tracks|].
    reflexivity. }
  unfold loading_tracks_call in Ha.
  destruct (Home.running a) as [t|] eqn:Hcall.
  - destruct Ha as [Hloading _]. split; [split; [discriminate | intros _; exact Hloading]|].
    intros _. cbn [Home.step]. rewrite Hloading, orb_true_r. reflexivity.
  - split; [split; congruence | congruence].
Qed.

Lemma handleImageUpload_within {R} (chosen : list File) (s : state R) :
  (length (images s) <= MAX_IMAGES)%nat ->
  (length (images (handleImageUpload chosen s)) <= MAX_IMAGES)%nat.
Proof.
  intros Hs. unfold handleImageUpload.
  destruct (Nat.ltb_spec MAX_IMAGES (length chosen)); cbn [images toast setImages];
    [exact Hs|].
  rewrite length_previews. assumption.
Qed.

Lemma removeImage_within {R} (index : nat) (s : state R) :
  (length (images s) <= MAX_IMAGES)%nat ->
  (length (images (removeImage index s)) <= MAX_IMAGES)%nat.
Proof.
  intros Hs. rewrite removeImage_images, delete_take_drop.
  rewrite length_app, length_take, length_drop. lia.
Qed.

Lemma change_within {R} (onChange : list File -> state R -> state R)
    (chosen : list File) (s : state R) :
  (forall s, (length (images s) <= MAX_IMAGES)%nat ->
             (length (images (onChange chosen s)) <= MAX_IMAGES)%nat) ->
  (length (images s) <= MAX_IMAGES)%nat ->
  (length (images (change onChange chosen s)) <= MAX_IMAGES)%nat.
Proof.
  intros Hon Hs. unfold change. destruct (fileInput s); [|exact Hs].
  apply Hon. exact Hs.
Qed.

Lemma clearAll_images {R} (s : state R) : images (clearAll s) = [].
Proof. unfold clearAll. cbn. destruct (fileInput s); reflexivity. Qed.

(** X17. None of the three pages ever holds more than five images,
    whatever the sequence of selections, removals, generations and
    clearings (and, in [Home], wherever the awaits settle in between). *)
Theorem images_within_limit :
  (forall es, (length (images (Home.ui (Home.run Home.initial es))) <= MAX_IMAGES)%nat)
  /\ (forall es, (length (images (IndexRef.run mounted es)) <= MAX_IMAGES)%nat)
  /\ (forall es, (length (images (Index.run mounted es)) <= MAX_IMAGES)%nat).
Proof.
  split; [|split]; intros es.
  - unfold Home.run.
    apply (fold_left_invariant
             (fun a => (length (images (Home.ui a)) <= MAX_IMAGES)%nat));
      [|cbn; unfold MAX_IMAGES; lia].
    intros [s call] e Hs. cbn [Home.ui] in Hs.
    destruct e as [chosen|index| | |w]; cbn [Home.step Home.on_ui Home.ui].
    + apply change_within; [|exact Hs]. intros s'. apply handleImageUpload_within.
    + apply removeImage_within, Hs.
    + destruct (bool_decide _ || _); [exact Hs|].
      unfold Home.generateDescriptionAndKeywords. cbn [Home.ui].
      destruct (images s) eqn:E; cbn [Home.continue_loop Home.ui images setIsLoading setResults];
        rewrite ?E; exact Hs.
    + rewrite clearAll_images. cbn. lia.
    + unfold Home.settle. cbn [Home.running Home.ui].
      destruct call as [t|]; [|exact Hs].
      destruct (Home.remaining t) as [|image todo]; [exact Hs|].
      destruct (Home.process_image w image); destruct todo;
        cbn [Home.continue_loop Home.ui images setIsLoading setResults toast console_error];
        exact Hs.
  - unfold IndexRef.run.
    apply (fold_left_invariant (fun s : state Result => (length (images s) <= MAX_IMAGES)%nat));
      [|cbn; unfold MAX_IMAGES; lia].
    intros s e Hs. destruct e as [chosen|index|random|]; cbn [IndexRef.step].
    + apply change_within; [|exact Hs]. intros s'. apply handleImageUpload_within.
    + apply removeImage_within, Hs.
    + destruct (bool_decide _ || _); exact Hs.
    + rewrite clearAll_images. cbn. lia.
  - unfold Index.run.
    apply (fold_left_invariant
             (fun s : state Index.PlaceholderResult =>
                (length (images s) <= MAX_IMAGES)%nat));
      [|cbn; unfold MAX_IMAGES; lia].
    intros s e Hs. destruct e as [chosen|index| |]; cbn [Index.step].
    + apply change_within; [|exact Hs]. clear s Hs. intros s Hs.
      unfold Index.handleImageUpload.
      destruct (Nat.ltb_spec MAX_IMAGES (length (images s) + length chosen));
        cbn [images toast setImages]; [exact Hs|].
      rewrite length_app, length_previews. assumption.
    + apply removeImage_within, Hs.
    + destruct (bool_decide _ || _); exact Hs.
    + cbn. lia.
Qed.

End RunInvariants.

(** ** The page and the route together *)

Section EndToEnd.
Import Client Home Notions Samples.

(** With the file read and an answer whose [ok] is true and whose body
    parses, what is left of the pipeline is the path to the message
    content and [parseResponse]. *)
Lemma process_image_answered (w : world) (image : ImageData)
    (base64Image : jsstring) (response : Response) (data : json) :
  readAsDataURL w (file image) = Normal base64Image ->
  fetch w (generate_request base64Image) = Normal response ->
  ok response = true ->
  json_body response = Normal data ->
  process_image w image
  = (let* content := message_content data in
     let* text := as_string content in
     parseResponse text).
Proof.
  intros Hread Hfetch Hok Hjson. unfold process_image, convertToBase64.
  rewrite Hread. cbn [bind]. fold (generate_request base64Image).
  rewrite Hfetch. cbn [bind]. rewrite Hok. cbn [negb]. rewrite Hjson. cbn [bind].
  unfold message_content.
  destruct (get (Some data) (str "choices")) as [choices|]; [|reflexivity]. cbn [bind].
  destruct (get_index choices 0) as [choice|]; [|reflexivity]. cbn [bind].
  destruct (get choice (str "message")) as [msg|]; [|reflexivity]. cbn [bind].
  destruct (get msg (str "content")) as [content|]; [|reflexivity]. cbn [bind].
  destruct (as_string content) as [text|]; [|reflexivity]. cbn [bind].
  rewrite parseResponse_fields. reflexivity.
Qed.

(** X18. The page behind the route, when the completion service throws:
    the route answers 500, and the pipeline of the image throws the fixed
    [Failed to generate description and keywords], whatever the service
    threw. *)
Theorem through_proxy_service_failure
    (create : option json -> completion json) (reader : File -> completion jsstring)
    (image : ImageData) (base64Image : jsstring) (error : js_error) :
  reader (file image) = Normal base64Image ->
  create (Some (payload base64Image)) = Throw error ->
  process_image (through_proxy create reader) image
  = Throw (Error (str "Failed to generate description and keywords")).
Proof.
  intros Hread Hthrow. unfold process_image, convertToBase64, through_proxy.
  cbn [readAsDataURL fetch]. rewrite Hread. cbn [bind method body].
  unfold Proxy.handler. cbn [Proxy.method Proxy.body].
  rewrite bool_decide_eq_true_2 by reflexivity. cbn [negb].
  rewrite Hthrow. reflexivity.
Qed.

Lemma through_proxy_service_failure_witness :
  process_image
    (through_proxy service_down (fun f => Normal (str "data:image/png;base64," ++ bytes f)))
    {| file := cat_file; preview := createObjectURL 0 |}
  = Throw (Error (str "Failed to generate description and keywords")).
Proof.
  apply (through_proxy_service_failure service_down _ _
           (str "data:image/png;base64," ++ bytes cat_file)
           (Rejected (str "connect ECONNREFUSED 10.0.0.7:443"))); reflexivity.
Defined.

(** X19. The page behind the route, when the completion service answers:
    the request of the page is a POST, so the route forwards its payload
    and hands the answer back with status 200, and the pipeline of the
    image returns what [parseResponse] makes of
    [choices[0].message.content] when that is a string. *)
Theorem through_proxy_success
    (create : option json -> completion json) (reader : File -> completion jsstring)
    (image : ImageData) (base64Image : jsstring) (data : json) (text : jsstring) :
  reader (file image) = Normal base64Image ->
  create (Some (payload base64Image)) = Normal data ->
  message_content data = Normal (Some (JString text)) ->
  process_image (through_proxy create reader) image = parseResponse text.
Proof.
  intros Hread Hanswer Hcontent.
  rewrite (process_image_answered _ image base64Image
             {| ok := true; json_body := Normal data |} data);
    [rewrite Hcontent; reflexivity | exact Hread | | reflexivity | reflexivity].
  unfold through_proxy, generate_request. cbn [fetch method body].
  unfold Proxy.handler. cbn [Proxy.method Proxy.body].
  rewrite bool_decide_eq_true_2 by reflexivity. cbn [negb].
  rewrite Hanswer. reflexivity.
Qed.

Lemma through_proxy_success_witness :
  process_image
    (through_proxy
       (fun _ => Normal (JObject
          [(str "choices",
            JArray [JObject [(str "message",
                              JObject [(str "content", JString cat_text)])]])]))
       (fun f => Normal (str "data:image/png;base64," ++ bytes f)))
    {| file := cat_file; preview := createObjectURL 0 |}
  = parseResponse cat_text.
Proof.
  apply (through_proxy_success _ _ _ (str "data:image/png;base64," ++ bytes cat_file)
           (JObject
              [(str "choices",
                JArray [JObject [(str "message",
                                  JObject [(str "content", JString cat_text)])]])]));
    reflexivity.
Defined.

End EndToEnd.

(** ** The placeholder generation of the two [Index] components *)

Section PlaceholderProperties.
Import Client Notions Samples.

Lemma length_placeholder_keywords (n : nat) :
  length (IndexRef.placeholder_keywords n) = n.
Proof. unfold IndexRef.placeholder_keywords. rewrite length_map, length_seq. reflexivity. Qed.

Lemma Forall_imap {A B} (P : B -> Prop) (f : nat -> A -> B) (l : list A) :
  (forall i x, P (f i x)) -> Forall P (imap f l).
Proof.
  revert f. induction l as [|x l IH]; intros f Hf; cbn; constructor; auto.
  apply IH. intros i y. apply Hf.
Qed.

(** X20. The placeholder generation leaves the images alone and publishes
    one entry per image, each with exactly forty keywords; in the [Index]
    stored after [Home] the token count of each entry is from 50 to 149
    when [Math.floor(Math.random() * 100)] is from 0 to 99. *)
Theorem placeholder_generation :
  (forall random (s : state Result),
     let s' := IndexRef.generateDescriptionAndKeywords random s in
     images s' = images s /\ isLoading s' = false
     /\ length (results s') = length (images s)
     /\ Forall (fun r => length (keywords r) = 40%nat) (results s')
     /\ ((forall i, (0 <= random i < 100)%Z) ->
         Forall (fun r => exists z, tokensUsed r = Num z /\ (50 <= z <= 149)%Z)
           (results s')))
  /\ (forall s : state Index.PlaceholderResult,
     let s' := Index.generateDescriptionAndKeywords s in
     images s' = images s /\ isLoading s' = false
     /\ length (results s') = length (images s)
     /\ Forall (fun r => length (Index.keywords r) = 40%nat) (results s')).
Proof.
  split.
  - intros random s s'. subst s'. unfold IndexRef.generateDescriptionAndKeywords.
    cbn [images results isLoading setIsLoading setResults].
    split; [reflexivity|]. split; [reflexivity|]. split; [apply length_imap|].
    split.
    + apply Forall_imap. intros i x. apply length_placeholder_keywords.
    + intros Hrandom. apply Forall_imap. intros i x. eexists. split; [reflexivity|].
      specialize (Hrandom i). lia.
  - intros s s'. subst s'. unfold Index.generateDescriptionAndKeywords.
    cbn [images results isLoading setIsLoading setResults].
    split; [reflexivity|]. split; [reflexivity|]. split; [apply length_imap|].
    apply Forall_imap. intros i x. apply length_placeholder_keywords.
Qed.

End PlaceholderProperties.

(** ** A generation with the user at work in between *)

Section StaleSnapshot.
Import Client Home Notions Samples.

Lemma settles_last (es : list event) :
  ends_settled es -> settles es <> [].
Proof.
  unfold ends_settled, settles. induction es as [|e es IH]; cbn [last]; [tauto|].
  destruct es as [|e' es].
  - destruct e; try tauto. discriminate.
  - intros H. specialize (IH H). cbn [omap list_omap] in *.
    destruct e; cbn; try exact IH; discriminate.
Qed.

Lemma ends_settled_cons (e : event) (es : list event) :
  es <> [] -> ends_settled (e :: es) -> ends_settled es.
Proof. unfold ends_settled. destruct es; [congruence | trivial]. Qed.

(** A call in flight goes through whatever the user does: the events that
    are not the settling of an iteration leave it as it is. *)
Lemma run_in_flight (es : list event) (todo : list ImageData) (acc : list Result)
    (s : state Result) :
  todo <> [] -> isLoading s = true ->
  length (settles es) = length todo -> ends_settled es ->
  let a' := run (App s (Some {| remaining := todo; newResults := acc |})) es in
  running a' = None /\ isLoading (ui a') = false
  /\ results (ui a') = acc ++ pushed (outcomes todo (settles es)).
Proof.
  revert todo acc s. induction es as [|e es IH]; intros todo acc s Htodo Hloading Hlen Hend;
    [contradiction Hend|].
  assert (forall s', isLoading s' = true ->
            match e with Settled _ => False | _ => True end ->
            settles (e :: es) = settles es ->
            let a' := run (App s' (Some {| remaining := todo; newResults := acc |})) es in
            running a' = None /\ isLoading (ui a') = false
            /\ results (ui a') = acc ++ pushed (outcomes todo (settles (e :: es)))) as Hui.
  { intros s' Hs' He Hsame. rewrite Hsame in *.
    assert (es <> []) as Hne.
    { intros ->. destruct e; try contradiction He; contradiction Hend. }
    apply IH; try assumption. apply (ends_settled_cons e); assumption. }
  destruct e as [chosen|index| | |w]; cbn [run fold_left step on_ui ui running].
  - apply Hui; [rewrite change_isLoading; exact Hloading | exact I | reflexivity].
  - apply Hui; [exact Hloading | exact I | reflexivity].
  - rewrite Hloading, orb_true_r. apply Hui; [exact Hloading | exact I | reflexivity].
  - apply Hui; [rewrite clearAll_isLoading; exact Hloading | exact I | reflexivity].
  - clear Hui. destruct todo as [|image todo]; [congruence|].
    change (settles (Settled w :: es)) with (w :: settles es) in *.
    cbn [length] in Hlen. injection Hlen as Hlen.
    unfold settle. cbn [running remaining newResults ui].
    unfold outcomes. cbn [zip_with]. fold (outcomes todo (settles es)).
    assert (forall acc' s', isLoading s' = true ->
              let a' := fold_left step es (continue_loop todo acc' s') in
              running a' = None /\ isLoading (ui a') = false
              /\ results (ui a') = acc' ++ pushed (outcomes todo (settles es))) as Hnext.
    { intros acc' s' Hs'. destruct todo as [|image' todo].
      - destruct es as [|e es].
        + cbn. rewrite app_nil_r. auto.
        + exfalso. apply (settles_last (e :: es)).
          * apply (ends_settled_cons (Settled w)); [discriminate | exact Hend].
          * destruct (settles (e :: es)); [reflexivity | discriminate Hlen].
      - assert (es <> []) as Hne by (intros ->; discriminate Hlen).
        apply (IH (image' :: todo) acc' s'); try assumption; [discriminate|].
        apply (ends_settled_cons (Settled w)); assumption. }
    destruct (process_image w image) as [r|error].
    + destruct (Hnext (acc ++ [r]) s Hloading) as (H1 & H2 & H3).
      split; [exact H1|]. split; [exact H2|]. rewrite H3.
      unfold pushed. cbn. rewrite <- app_assoc. reflexivity.
    + apply (Hnext acc). exact Hloading.
Qed.

(** X24. A generation publishes the results of the images as they were
    when Generate was pressed, whatever the user selects, removes or
    clears while its awaits are pending: once the last iteration has
    settled, the results are the results of the successful ones among
    those images, in order, and [isLoading] is false. *)
Theorem generation_publishes_snapshot (a : app) (es : list event) :
  isLoading (ui a) = false -> images (ui a) <> [] ->
  length (settles es) = length (images (ui a)) -> ends_settled es ->
  let a' := run a (ClickGenerate :: es) in
  running a' = None /\ isLoading (ui a') = false
  /\ results (ui a') = pushed (outcomes (images (ui a)) (settles es)).
Proof.
  intros Hloading Himgs Hlen Hend.
  cbn [run fold_left step].
  rewrite Hloading, orb_false_r, bool_decide_eq_false_2 by exact Himgs.
  unfold generateDescriptionAndKeywords.
  destruct (images (ui a)) as [|image imgs] eqn:E; [congruence|].
  cbn [continue_loop].
  apply (run_in_flight es (image :: imgs) [] (setIsLoading true (ui a)));
    [discriminate | reflexivity | exact Hlen | exact Hend].
Qed.

Lemma generation_publishes_snapshot_witness :
  results (ui (run (run initial [Change [cat_file]])
                 [ClickGenerate; ClickClearAll; Settled answering]))
  = [cat_result]
  /\ images (ui (run (run initial [Change [cat_file]])
                   [ClickGenerate; ClickClearAll; Settled answering])) = [].
Proof.
  split; [|reflexivity].
  apply (generation_publishes_snapshot (run initial [Change [cat_file]])
           [ClickClearAll; Settled answering]);
    [reflexivity | discriminate | reflexivity | exact I].
Defined.

End StaleSnapshot.
